(** * Enhanced Pong: the simulation core of [PongAi.py]

    A shallow embedding of the paddle, the ball, the match globals and the
    frame loop of [main], followed by the properties the specification
    states about them.

    Numbers.  Python's [float] values are read as real numbers ([R]); the
    fields that only ever hold a Python [int] (sizes, the paddle speed, the
    scores, the glow counter) are [Z] and enter real arithmetic through
    [IZR].  [//] on ints is [Z.div] (both round towards minus infinity).
    A [ZeroDivisionError] is the only exception the core can raise; an
    operation that may raise it returns [option].

    Randomness.  [random.random()] draws are explicit arguments:
    [random.uniform a b] is [a + (b - a) * r] for a draw [r] of
    [random.random()], and [random.choice [True; False]] is a boolean.

    Rendering, sound and the particle objects are left out; the calls to
    [create_particles] are kept as an output trace so that the branch a
    call took stays observable. *)

From Stdlib Require Import Reals Lra Lia ZArith List String Bool.
Import ListNotations.

Open Scope R_scope.

(** ** Module-level constants *)

Definition WIDTH : Z := 1000.
Definition HEIGHT : Z := 600.

Definition color : Type := (Z * Z * Z)%type.
Definition BLUE : color := (52, 152, 219)%Z.
Definition RED : color := (231, 76, 60)%Z.
Definition ORANGE : color := (230, 126, 34)%Z.
Definition NEON_PINK : color := (255, 20, 147)%Z.

(** ** Python primitives *)

(** Comparisons of floats, as booleans. *)
Definition Rleb (a b : R) : bool := if Rle_dec a b then true else false.
Definition Rltb (a b : R) : bool := if Rlt_dec a b then true else false.

(** [a / b] on floats: raises [ZeroDivisionError] when [b] is zero. *)
Definition truediv (a b : R) : option R :=
  if Req_dec_T b 0 then None else Some (a / b).

(** [random.uniform(a, b)], from the draw [r] of [random.random()]. *)
Definition uniform (a b r : R) : R := a + (b - a) * r.

(** The draws of [random.random()] lie between 0 and 1. *)
Definition unit_draw (r : R) : Prop := 0 <= r <= 1.

(** One call [create_particles(color, count)] at the position of the ball. *)
Record burst : Type := Burst {
  burst_x : R;
  burst_y : R;
  burst_color : color;
  burst_count : Z
}.

Definition color_eqb (c d : color) : bool :=
  let '(r1, g1, b1) := c in
  let '(r2, g2, b2) := d in
  ((r1 =? r2)%Z && (g1 =? g2)%Z && (b1 =? b2)%Z)%bool.

(** Whether a trace holds a burst of the given colour. *)
Definition has_burst (c : color) (log : list burst) : bool :=
  existsb (fun b => color_eqb (burst_color b) c) log.

(** A small error monad for the code that may divide by zero. *)
Definition bind {A B : Type} (m : option A) (k : A -> option B) : option B :=
  match m with
  | Some a => k a
  | None => None
  end.

Notation "x <- m ;; k" := (bind m (fun x => k))
  (at level 61, m at next level, right associativity).

(** ** class Trail *)

Module Trail.

Record t : Type := Make {
  positions : list (R * R);
  max_length : nat
}.

(** [Trail(max_length)] *)
Definition init (n : nat) : t := Make [] n.

(** [add_position]: append, then drop the oldest entry when the list is
    longer than [max_length]. *)
Definition add_position (tr : t) (px py : R) : t :=
  let ps := (positions tr ++ [(px, py)])%list in
  if (max_length tr <? List.length ps)%nat
  then Make (List.tl ps) (max_length tr)
  else Make ps (max_length tr).

End Trail.

(** ** class Paddle *)

Module Paddle.

Record t : Type := Make {
  x : R;
  y : R;
  width : Z;
  height : Z;
  speed : Z;
  glow_intensity : Z;
  target_y : R
}.

(** [Paddle(x, y, width=15, height=80)] *)
Definition init (px py : R) (w h : Z) : t := Make px py w h 6 0 py.

Definition set_y (p : t) (v : R) : t :=
  Make (x p) v (width p) (height p) (speed p) (glow_intensity p) (target_y p).

Definition set_glow (p : t) (v : Z) : t :=
  Make (x p) (y p) (width p) (height p) (speed p) v (target_y p).

(** [max(20, min(HEIGHT - 20 - self.height, self.y))] *)
Definition clamp (p : t) (v : R) : R :=
  Rmax 20 (Rmin (IZR (HEIGHT - 20 - height p)) v).

(** [move(direction)] *)
Definition move (p : t) (direction : R) : t :=
  let y1 := y p + IZR (speed p) * direction in
  set_y p (clamp p y1).

(** [ai_move(ball_y, difficulty)]; [r] is the draw behind the call to
    [random.uniform]. *)
Definition ai_move (p : t) (ball_y difficulty r : R) : t :=
  let center_y := y p + IZR (height p / 2) in
  let target := ball_y + uniform (- IZR (height p) * difficulty)
                                 (IZR (height p) * difficulty) r in
  let diff_y := target - center_y in
  let move_amount := diff_y * (1 / 10) in
  let move_amount :=
    if Rltb (IZR (speed p)) (Rabs move_amount)
    then (if Rltb 0 move_amount then IZR (speed p) else - IZR (speed p))
    else move_amount in
  let y1 := y p + move_amount in
  set_y p (clamp p y1).

(** The only state [draw] touches: the glow fades by 5 per frame. *)
Definition draw (p : t) : t :=
  if (0 <? glow_intensity p)%Z
  then set_glow p (Z.max 0 (glow_intensity p - 5))
  else p.

(** [activate_glow()] *)
Definition activate_glow (p : t) : t := set_glow p 100.

End Paddle.

(** ** Match globals *)

Record globals : Type := Globals {
  score_left : Z;
  score_right : Z;
  max_score : Z;
  game_state : string;  (* "menu", "playing", "paused", "game_over" *)
  winner : string;      (* "", "left", "right" *)
  game_mode : string    (* "none", "player_vs_player", "player_vs_ai" *)
}.

(** The globals as the module sets them at import time. *)
Definition initial_globals : globals :=
  Globals 0 0 10 "menu" "" "none".

Definition set_score_left (g : globals) (v : Z) : globals :=
  Globals v (score_right g) (max_score g) (game_state g) (winner g) (game_mode g).
Definition set_score_right (g : globals) (v : Z) : globals :=
  Globals (score_left g) v (max_score g) (game_state g) (winner g) (game_mode g).
Definition set_game_state (g : globals) (v : string) : globals :=
  Globals (score_left g) (score_right g) (max_score g) v (winner g) (game_mode g).
Definition set_winner (g : globals) (v : string) : globals :=
  Globals (score_left g) (score_right g) (max_score g) (game_state g) v (game_mode g).
Definition set_game_mode (g : globals) (v : string) : globals :=
  Globals (score_left g) (score_right g) (max_score g) (game_state g) (winner g) v.

(** [reset_game()] *)
Definition reset_game (g : globals) : globals :=
  let g := set_score_left g 0 in
  let g := set_score_right g 0 in
  if (game_state g =? "game_over")%string
  then set_game_mode (set_game_state g "menu") "none"
  else set_game_state g "playing".

(** ** class Ball *)

Module Ball.

Record t : Type := Make {
  x : R;
  y : R;
  radius : Z;
  speed : R;
  vx : R;
  vy : R;
  trail : Trail.t
}.

(** [reset_ball()]; [r] is the draw behind [random.uniform] and [flip]
    the outcome of [random.choice]. *)
Definition reset_ball (b : t) (r : R) (flip : bool) : t :=
  let speed := 6 in
  let angle := uniform (- PI / 6) (PI / 6) r in
  let angle := if flip then angle + PI else angle in
  Make (IZR (WIDTH / 2)) (IZR (HEIGHT / 2)) (radius b) speed
       (speed * cos angle) (speed * sin angle) (trail b).

(** [Ball(x, y, radius)]: the constructor resets the ball at once. *)
Definition init (px py : R) (rad : Z) (r : R) (flip : bool) : t :=
  let b := reset_ball (Make px py rad 0 0 0 (Trail.init 0)) r flip in
  Make (x b) (y b) (radius b) (speed b) (vx b) (vy b) (Trail.init 15).

Definition create_particles (b : t) (c : color) (count : Z) : burst :=
  Burst (x b) (y b) c count.

(** The test of the wall-collision [if]. *)
Definition at_wall (b : t) : bool :=
  Rleb (y b - IZR (radius b)) 20
  || Rleb (IZR (HEIGHT - 20)) (y b + IZR (radius b)).

(** [update()]: integrate, record the trail, bounce off the border bands,
    then detect a score.  Returns the ball, the globals (the scores are
    module globals) and the particle bursts issued. *)
Definition update (b : t) (g : globals) (r : R) (flip : bool)
  : t * globals * list burst :=
  let x1 := x b + vx b in
  let y1 := y b + vy b in
  let b := Make x1 y1 (radius b) (speed b) (vx b) (vy b)
                (Trail.add_position (trail b) x1 y1) in
  let '(b, log) :=
    if at_wall b
    then (Make (x b) (y b) (radius b) (speed b) (vx b) (- vy b) (trail b),
          [create_particles b ORANGE 10])
    else (b, []) in
  if Rltb (x b) 0
  then (reset_ball b r flip,
        set_score_right g (score_right g + 1),
        (log ++ [create_particles b RED 20])%list)
  else if Rltb (IZR WIDTH) (x b)
  then (reset_ball b r flip,
        set_score_left g (score_left g + 1),
        (log ++ [create_particles b BLUE 20])%list)
  else (b, g, log).

(** The overlap test of [check_paddle_collision]. *)
Definition overlaps (b : t) (p : Paddle.t) : bool :=
  Rleb (x b - IZR (radius b)) (Paddle.x p + IZR (Paddle.width p))
  && Rleb (Paddle.x p) (x b + IZR (radius b))
  && Rleb (y b - IZR (radius b)) (Paddle.y p + IZR (Paddle.height p))
  && Rleb (Paddle.y p) (y b + IZR (radius b)).

(** [hit_pos] and [bounce_angle] of [check_paddle_collision]. *)
Definition hit_pos (b : t) (p : Paddle.t) : option R :=
  let paddle_center := Paddle.y p + IZR (Paddle.height p / 2) in
  truediv (y b - paddle_center) (IZR (Paddle.height p / 2)).

Definition bounce_angle (b : t) (p : Paddle.t) : option R :=
  h <- hit_pos b p ;;
  Some (h * PI / 3).

(** [check_paddle_collision(paddle)]: [None] is a [ZeroDivisionError]. *)
Definition check_paddle_collision (b : t) (p : Paddle.t)
  : option (bool * t * Paddle.t * list burst) :=
  if overlaps b p then
    angle <- bounce_angle b p ;;
    let vx1 := if Rltb (Paddle.x p) (IZR (WIDTH / 2))
               then Rabs (vx b) else - Rabs (vx b) in
    let vy1 := speed b * sin angle in
    let speed1 := Rmin 12 (speed b + 2 / 10) in
    let speed_magnitude := sqrt (vx1 ^ 2 + vy1 ^ 2) in
    qx <- truediv vx1 speed_magnitude ;;
    qy <- truediv vy1 speed_magnitude ;;
    let b1 := Make (x b) (y b) (radius b) speed1
                   (qx * speed1) (qy * speed1) (trail b) in
    Some (true, b1, Paddle.activate_glow p,
          [create_particles b1 NEON_PINK 15])
  else Some (false, b, p, []).

End Ball.

(** ** The frame loop of [main] *)

(** The keys [main] looks at; every other key is [K_other]. *)
Inductive key : Type :=
| K_q | K_SPACE | K_p | K_r | K_1 | K_2
| K_w | K_s | K_UP | K_DOWN | K_other.

Definition key_eqb (a b : key) : bool :=
  match a, b with
  | K_q, K_q | K_SPACE, K_SPACE | K_p, K_p | K_r, K_r
  | K_1, K_1 | K_2, K_2 | K_w, K_w | K_s, K_s
  | K_UP, K_UP | K_DOWN, K_DOWN | K_other, K_other => true
  | _, _ => false
  end.

(** What [pygame.event.get()] delivers. *)
Inductive event : Type :=
| QUIT
| KEYDOWN (k : key)
| KEYUP (k : key)
| OTHER.

(** The globals together with the locals of [main]. *)
Record world : Type := World {
  g : globals;
  left_paddle : Paddle.t;
  right_paddle : Paddle.t;
  ball : Ball.t;
  left_up : bool;
  left_down : bool;
  right_up : bool;
  right_down : bool;
  running : bool
}.

Definition set_g (w : world) (v : globals) : world :=
  World v (left_paddle w) (right_paddle w) (ball w)
        (left_up w) (left_down w) (right_up w) (right_down w) (running w).
Definition set_left_paddle (w : world) (v : Paddle.t) : world :=
  World (g w) v (right_paddle w) (ball w)
        (left_up w) (left_down w) (right_up w) (right_down w) (running w).
Definition set_right_paddle (w : world) (v : Paddle.t) : world :=
  World (g w) (left_paddle w) v (ball w)
        (left_up w) (left_down w) (right_up w) (right_down w) (running w).
Definition set_ball (w : world) (v : Ball.t) : world :=
  World (g w) (left_paddle w) (right_paddle w) v
        (left_up w) (left_down w) (right_up w) (right_down w) (running w).
Definition set_left_up (w : world) (v : bool) : world :=
  World (g w) (left_paddle w) (right_paddle w) (ball w)
        v (left_down w) (right_up w) (right_down w) (running w).
Definition set_left_down (w : world) (v : bool) : world :=
  World (g w) (left_paddle w) (right_paddle w) (ball w)
        (left_up w) v (right_up w) (right_down w) (running w).
Definition set_right_up (w : world) (v : bool) : world :=
  World (g w) (left_paddle w) (right_paddle w) (ball w)
        (left_up w) (left_down w) v (right_down w) (running w).
Definition set_right_down (w : world) (v : bool) : world :=
  World (g w) (left_paddle w) (right_paddle w) (ball w)
        (left_up w) (left_down w) (right_up w) v (running w).
Definition set_running (w : world) (v : bool) : world :=
  World (g w) (left_paddle w) (right_paddle w) (ball w)
        (left_up w) (left_down w) (right_up w) (right_down w) v.

Definition state_is (w : world) (s : string) : bool :=
  (game_state (g w) =? s)%string.
Definition mode_is (w : world) (s : string) : bool :=
  (game_mode (g w) =? s)%string.

(** The objects [main] creates before the loop; [r] and [flip] are the
    draws of the ball's first [reset_ball]. *)
Definition initial_world (r : R) (flip : bool) : world :=
  World initial_globals
        (Paddle.init 30 (IZR (HEIGHT / 2 - 40)) 15 80)
        (Paddle.init (IZR (WIDTH - 45)) (IZR (HEIGHT / 2 - 40)) 15 80)
        (Ball.init (IZR (WIDTH / 2)) (IZR (HEIGHT / 2)) 12 r flip)
        false false false false true.

(** The body of [elif event.type == pygame.KEYDOWN]. *)
Definition on_keydown (k : key) (w : world) : world :=
  (* the q / SPACE / p / r chain *)
  let w :=
    if key_eqb k K_q then set_running w false
    else if key_eqb k K_SPACE then
      if state_is w "menu" && negb (mode_is w "none")
      then set_g w (reset_game (set_game_state (g w) "playing"))
      else if state_is w "playing" then set_g w (set_game_state (g w) "paused")
      else if state_is w "paused" then set_g w (set_game_state (g w) "playing")
      else w
    else if key_eqb k K_p then
      if state_is w "playing" then set_g w (set_game_state (g w) "paused")
      else if state_is w "paused" then set_g w (set_game_state (g w) "playing")
      else w
    else if key_eqb k K_r then set_g w (reset_game (g w))
    else w in
  (* mode selection in the menu *)
  let w :=
    if state_is w "menu" then
      if key_eqb k K_1 then
        set_g w (reset_game (set_game_state
                   (set_game_mode (g w) "player_vs_player") "playing"))
      else if key_eqb k K_2 then
        set_g w (reset_game (set_game_state
                   (set_game_mode (g w) "player_vs_ai") "playing"))
      else w
    else w in
  (* paddle controls *)
  if state_is w "playing" then
    let w :=
      if key_eqb k K_w then set_left_up w true
      else if key_eqb k K_s then set_left_down w true
      else w in
    if mode_is w "player_vs_player" then
      if key_eqb k K_UP then set_right_up w true
      else if key_eqb k K_DOWN then set_right_down w true
      else w
    else w
  else w.

(** The body of [elif event.type == pygame.KEYUP]. *)
Definition on_keyup (k : key) (w : world) : world :=
  if state_is w "playing" then
    let w :=
      if key_eqb k K_w then set_left_up w false
      else if key_eqb k K_s then set_left_down w false
      else w in
    if mode_is w "player_vs_player" then
      if key_eqb k K_UP then set_right_up w false
      else if key_eqb k K_DOWN then set_right_down w false
      else w
    else w
  else w.

(** One iteration of [for event in pygame.event.get()]. *)
Definition handle_event (w : world) (e : event) : world :=
  match e with
  | QUIT => set_running w false
  | KEYDOWN k => on_keydown k w
  | KEYUP k => on_keyup k w
  | OTHER => w
  end.

Definition handle_events (w : world) (es : list event) : world :=
  fold_left handle_event es w.

(** The random draws one frame may consume. *)
Record draws : Type := Draws {
  ai_draw : R;       (* [random.uniform] in [ai_move] *)
  angle_draw : R;    (* [random.uniform] in [reset_ball] *)
  flip_draw : bool   (* [random.choice] in [reset_ball] *)
}.

(** The AI calls [ai_move(ball.y)] with the default [difficulty=0.2]. *)
Definition default_difficulty : R := 2 / 10.

(** The win check that closes the game logic. *)
Definition check_win (gl : globals) : globals :=
  if (max_score gl <=? score_left gl)%Z
  then set_game_state (set_winner gl "left") "game_over"
  else if (max_score gl <=? score_right gl)%Z
  then set_game_state (set_winner gl "right") "game_over"
  else gl.

(** [# Left Paddle movement] and [# Right Paddle movement]. *)
Definition move_paddles (w : world) (d : draws) : world :=
  let w := if left_up w
           then set_left_paddle w (Paddle.move (left_paddle w) (-1)) else w in
  let w := if left_down w
           then set_left_paddle w (Paddle.move (left_paddle w) 1) else w in
  if mode_is w "player_vs_player" then
    let w := if right_up w
             then set_right_paddle w (Paddle.move (right_paddle w) (-1))
             else w in
    if right_down w
    then set_right_paddle w (Paddle.move (right_paddle w) 1) else w
  else if mode_is w "player_vs_ai" then
    set_right_paddle w
      (Paddle.ai_move (right_paddle w) (Ball.y (ball w))
                      default_difficulty (ai_draw d))
  else w.

(** [# Ball update]: [update], then the collision check against the left
    and against the right paddle. *)
Definition ball_step (w : world) (d : draws) : option (world * list burst) :=
  let '(b, gl, log0) :=
    Ball.update (ball w) (g w) (angle_draw d) (flip_draw d) in
  let w := set_g (set_ball w b) gl in
  r1 <- Ball.check_paddle_collision (ball w) (left_paddle w) ;;
  let '(_, b, p, log1) := r1 in
  let w := set_left_paddle (set_ball w b) p in
  r2 <- Ball.check_paddle_collision (ball w) (right_paddle w) ;;
  let '(_, b, p, log2) := r2 in
  let w := set_right_paddle (set_ball w b) p in
  Some (w, (log0 ++ log1 ++ log2)%list).

(** The body of [if game_state == "playing"] under [# Game logic]: the
    paddles, the ball, then the win check. *)
Definition play (w : world) (d : draws) : option (world * list burst) :=
  let w := move_paddles w d in
  r <- ball_step w d ;;
  let '(w, log) := r in
  Some (set_g w (check_win (g w)), log).

Definition game_logic (w : world) (d : draws) : option (world * list burst) :=
  if state_is w "playing" then play w d else Some (w, []).

(** The part of [# Drawing] that changes state: the paddles' glow. *)
Definition drawing (w : world) : world :=
  if state_is w "menu" then w
  else if state_is w "playing" || state_is w "paused"
          || state_is w "game_over"
  then set_right_paddle
         (set_left_paddle w (Paddle.draw (left_paddle w)))
         (Paddle.draw (right_paddle w))
  else w.

(** What one frame receives from outside. *)
Record frame_input : Type := FrameInput {
  events : list event;
  rnd : draws
}.

(** One iteration of [while running]. *)
Definition frame (w : world) (i : frame_input) : option (world * list burst) :=
  let w := handle_events w (events i) in
  r <- game_logic w (rnd i) ;;
  let '(w, log) := r in
  Some (drawing w, log).

(** [while running]: the frames are consumed as long as [running] holds. *)
Fixpoint main_loop (w : world) (fs : list frame_input) : option world :=
  match fs with
  | [] => Some w
  | i :: fs =>
      if running w then
        r <- frame w i ;;
        main_loop (fst r) fs
      else Some w
  end.

(** ** Vocabulary of the properties *)

(** The paddle invariant: between the two border bands. *)
Definition in_bounds (p : Paddle.t) : Prop :=
  20 <= Paddle.y p <= IZR (HEIGHT - 20 - Paddle.height p).

(** A call on a paddle, with its arguments (and the draw it consumes). *)
Inductive paddle_call : Type :=
| Move (direction : R)
| AiMove (ball_y difficulty r : R).

Definition do_call (p : Paddle.t) (c : paddle_call) : Paddle.t :=
  match c with
  | Move d => Paddle.move p d
  | AiMove by_ df r => Paddle.ai_move p by_ df r
  end.

(** The paddle after each call of a sequence, in order. *)
Fixpoint call_trace (p : Paddle.t) (cs : list paddle_call) : list Paddle.t :=
  match cs with
  | [] => []
  | c :: cs => let p1 := do_call p c in p1 :: call_trace p1 cs
  end.

(** The length of the velocity vector. *)
Definition velocity_norm (b : Ball.t) : R :=
  sqrt (Ball.vx b ^ 2 + Ball.vy b ^ 2).

(** The ball states a game can reach: a ball that was just reset (the
    constructor resets it too), and whatever [update] and
    [check_paddle_collision] make of a reachable ball. *)
Inductive reachable : Ball.t -> Prop :=
| reach_reset (b : Ball.t) (r : R) (flip : bool) :
    unit_draw r -> reachable (Ball.reset_ball b r flip)
| reach_update (b : Ball.t) (gl : globals) (r : R) (flip : bool) :
    reachable b -> unit_draw r ->
    reachable (fst (fst (Ball.update b gl r flip)))
| reach_collision (b : Ball.t) (p : Paddle.t) (hit : bool)
                  (b1 : Ball.t) (p1 : Paddle.t) (log : list burst) :
    reachable b ->
    Ball.check_paddle_collision b p = Some (hit, b1, p1, log) ->
    reachable b1.

(** What every reachable ball satisfies. *)
Definition ball_inv (b : Ball.t) : Prop :=
  Ball.vx b <> 0 /\ 6 <= Ball.speed b <= 12 /\ velocity_norm b = Ball.speed b.

(** The ball a hit leaves behind, for a given bounce angle, written with the
    total division of [R]; [bounce_hit] relates it to the code. *)
Definition rebound (b : Ball.t) (p : Paddle.t) (angle : R) : Ball.t :=
  let vx1 := if Rltb (Paddle.x p) (IZR (WIDTH / 2))
             then Rabs (Ball.vx b) else - Rabs (Ball.vx b) in
  let vy1 := Ball.speed b * sin angle in
  let speed1 := Rmin 12 (Ball.speed b + 2 / 10) in
  let m := sqrt (vx1 ^ 2 + vy1 ^ 2) in
  Ball.Make (Ball.x b) (Ball.y b) (Ball.radius b) speed1
            (vx1 / m * speed1) (vy1 / m * speed1) (Ball.trail b).

(** The length of the velocity before normalisation, as the code has it. *)
Definition speed_magnitude (b : Ball.t) (p : Paddle.t) (a : R) : R :=
  sqrt ((if Rltb (Paddle.x p) (IZR (WIDTH / 2))
         then Rabs (Ball.vx b) else - Rabs (Ball.vx b)) ^ 2
        + (Ball.speed b * sin a) ^ 2).

(** The two tests of [update], on the ball before the call: does the
    integrated position touch a border band, does it leave the playfield
    through a side. *)
Definition touches_band (b : Ball.t) : bool :=
  Rleb (Ball.y b + Ball.vy b - IZR (Ball.radius b)) 20
  || Rleb (IZR (HEIGHT - 20)) (Ball.y b + Ball.vy b + IZR (Ball.radius b)).

Definition exits_left (b : Ball.t) : bool := Rltb (Ball.x b + Ball.vx b) 0.

Definition exits_right (b : Ball.t) : bool :=
  negb (exits_left b) && Rltb (IZR WIDTH) (Ball.x b + Ball.vx b).

(** A ball flying down-left into the corner of the top band and the left
    edge, and the globals of a running match. *)
Definition corner_ball : Ball.t :=
  Ball.Make 3 35 12 6 (- (24 / 5)) (- (18 / 5)) (Trail.init 15).

Definition playing_globals (sl sr : Z) (mode : string) : globals :=
  Globals sl sr 10 "playing" "" mode.

(** The same flight in the middle of the playfield's width: the ball meets
    the top band far from both sides. *)
Definition band_ball : Ball.t :=
  Ball.Make 500 35 12 6 (- (24 / 5)) (- (18 / 5)) (Trail.init 15).

(** A ball launched horizontally to the left ([random.random()] gave 0.5,
    [random.choice] gave [True]) after 74 frames, and the left paddle after
    eight frames of [move(-1)]: the ball meets the paddle's bottom corner. *)
Definition edge_ball : Ball.t :=
  Ball.Make 56 300 12 6 (-6) 0 (Trail.init 15).

Definition edge_paddle : Paddle.t := Paddle.Make 30 212 15 80 6 0 260.

(** A ball just launched horizontally to the right, and a paddle standing
    in the middle of the playfield, right under it. *)
Definition centre_ball : Ball.t :=
  Ball.reset_ball (Ball.Make 0 0 12 0 0 0 (Trail.init 15)) (1 / 2) false.

Definition centre_paddle : Paddle.t := Paddle.init 495 260 15 80.

(** Two paddles that differ at most in their glow. *)
Definition same_but_glow (p q : Paddle.t) : Prop :=
  Paddle.set_glow p 0 = Paddle.set_glow q 0.

(** The paddles of the program have a height whose half is not zero (80 in
    [main]), so that [hit_pos] is defined. *)
Definition paddles_sound (w : world) : Prop :=
  (Paddle.height (left_paddle w) / 2 <> 0)%Z /\
  (Paddle.height (right_paddle w) / 2 <> 0)%Z.

(** The worlds the loop runs on: a reachable ball and sound paddles. *)
Definition world_ok (w : world) : Prop :=
  reachable (ball w) /\ paddles_sound w.

(** Draws that [random.random()] can deliver. *)
Definition fair_draws (d : draws) : Prop :=
  unit_draw (ai_draw d) /\ unit_draw (angle_draw d).

(** The two key bindings that toggle the pause. *)
Definition pause_key (k : key) : Prop := k = K_SPACE \/ k = K_p.

(** A frame without events. *)
Definition idle_frame (d : draws) : frame_input := FrameInput [] d.

(** A match is on: the phase is [playing] or [paused]. *)
Definition game_on (w : world) : Prop :=
  game_state (g w) = "playing"%string \/ game_state (g w) = "paused"%string.

(** [in_game_run w w1]: [w1] is reached from [w] by frames each of which
    started while the match was on. *)
Inductive in_game_run (w : world) : world -> Prop :=
| run_here : in_game_run w w
| run_frame (w1 : world) (i : frame_input) (w2 : world) (log : list burst) :
    in_game_run w w1 -> game_on w1 -> frame w1 i = Some (w2, log) ->
    in_game_run w w2.

(** The scenario of the tenth point: a match in which the right side has 9
    points and the ball stands at x = -1, once flying right, once left. *)
Definition ninth_point_world (vx0 : R) : world :=
  World (playing_globals 0 9 "player_vs_player")
        (Paddle.init 30 260 15 80) (Paddle.init 955 260 15 80)
        (Ball.Make (-1) 300 12 6 vx0 0 (Trail.init 15))
        false false false false true.

Definition some_draws : draws := Draws (1 / 2) (1 / 2) false.

(** [frozen w1 w2]: the two worlds agree on the globals, the ball (position,
    velocity, speed, trail), the paddles up to their glow, the latched keys
    and the [running] flag. *)
Definition frozen (w1 w2 : world) : Prop :=
  g w1 = g w2 /\ ball w1 = ball w2 /\
  same_but_glow (left_paddle w1) (left_paddle w2) /\
  same_but_glow (right_paddle w1) (right_paddle w2) /\
  left_up w1 = left_up w2 /\ left_down w1 = left_down w2 /\
  right_up w1 = right_up w2 /\ right_down w1 = right_down w2 /\
  running w1 = running w2.

(** ** The cosmetic parts of the source *)

Definition WHITE : color := (255, 255, 255)%Z.

Definition particle_color : Type := color.

(** *** class Particle *)

Module Particle.

Record t : Type := Make {
  x : R;
  y : R;
  vx : R;
  vy : R;
  color : particle_color;
  life : R;
  decay : R;
  size : R
}.

(** [Particle(x, y, color)]; [r1] to [r4] are the draws behind the four
    calls of [random.uniform], in the order of the constructor. *)
Definition init (px py : R) (c : particle_color) (r1 r2 r3 r4 : R) : t :=
  Make px py (uniform (-3) 3 r1) (uniform (-3) 3 r2) c 255
       (uniform 3 6 r3) (uniform 2 5 r4).

(** [update()] *)
Definition update (p : t) : t :=
  Make (x p + vx p) (y p + vy p) (vx p) (vy p) (color p)
       (life p - decay p) (decay p) (size p * (98 / 100)).

(** [is_alive()] *)
Definition is_alive (p : t) : bool := Rltb 0 (life p).

End Particle.

(** The four draws one particle consumes. *)
Definition particle_draws : Type := (R * R * R * R)%type.

Definition fair_particle_draws (d : particle_draws) : Prop :=
  let '(r1, r2, r3, r4) := d in
  unit_draw r1 /\ unit_draw r2 /\ unit_draw r3 /\ unit_draw r4.

(** The particle list of [Ball.create_particles(color, count)]: one new
    particle per element of [range(count)], at the ball's position; [ds]
    gives the draws of the i-th particle. *)
Definition spawn_particles (ps : list Particle.t) (b : Ball.t) (c : color)
    (count : nat) (ds : nat -> particle_draws) : list Particle.t :=
  (ps ++ map (fun i => let '(r1, r2, r3, r4) := ds i in
                       Particle.init (Ball.x b) (Ball.y b) c r1 r2 r3 r4)
             (seq 0 count))%list.

(** [# Update particles] in [Ball.update]: drop the dead ones, then update
    those that are left. *)
Definition update_particles (ps : list Particle.t) : list Particle.t :=
  map Particle.update (filter Particle.is_alive ps).

(** *** Trail.draw *)

(** One circle [Trail.draw] blits: position, radius and alpha. *)
Record trail_circle : Type := TrailCircle {
  circle_x : R;
  circle_y : R;
  circle_size : Z;
  circle_alpha : Z
}.

(** [alpha] and [size] of the i-th of [n] positions: [int(255 * (i + 1) /
    n)] and [int(5 * (i + 1) / n)]; on non-negative ints the truncated
    quotient is the floor quotient. *)
Definition trail_alpha (i n : nat) : Z := (255 * (Z.of_nat i + 1) / Z.of_nat n)%Z.
Definition trail_size (i n : nat) : Z := (5 * (Z.of_nat i + 1) / Z.of_nat n)%Z.

(** [Trail.draw]: the circles drawn, oldest position first; a position
    whose [size] is 0 is skipped. *)
Definition trail_draw (tr : Trail.t) : list trail_circle :=
  let n := List.length (Trail.positions tr) in
  flat_map (fun ip : nat * (R * R) =>
              let '(i, (px, py)) := ip in
              if (0 <? trail_size i n)%Z
              then [TrailCircle px py (trail_size i n) (trail_alpha i n)]
              else [])
           (combine (seq 0 n) (Trail.positions tr)).

(** *** draw_game_over *)

(** The banner [draw_game_over] renders: its text and its colour. *)
Definition winner_banner (gl : globals) : string * color :=
  if (winner gl =? "left")%string then
    (if (game_mode gl =? "player_vs_player")%string
     then "Player 1 Wins!"%string else "You Win!"%string, BLUE)
  else if (winner gl =? "right")%string then
    (if (game_mode gl =? "player_vs_player")%string
     then "Player 2 Wins!"%string else "Computer Wins!"%string, RED)
  else (""%string, WHITE).

(** ** Vocabulary of the further properties *)

(** The particles with life at most [l] and decay at least 3. *)
Definition fading (l : R) (p : Particle.t) : Prop :=
  Particle.life p <= l /\ 3 <= Particle.decay p.

(** The trail never holds more than [max_length] positions. *)
Definition trail_bounded (tr : Trail.t) : Prop :=
  (List.length (Trail.positions tr) <= Trail.max_length tr)%nat.

(** What the frame loop keeps true of the match globals. *)
Definition valid_mode (gl : globals) : Prop :=
  game_mode gl = "none"%string \/ game_mode gl = "player_vs_player"%string
  \/ game_mode gl = "player_vs_ai"%string.

Definition scores_consistent (gl : globals) : Prop :=
  max_score gl = 10%Z /\ (0 <= score_left gl)%Z /\ (0 <= score_right gl)%Z /\
  (((game_state gl = "menu"%string \/ game_state gl = "playing"%string
     \/ game_state gl = "paused"%string)
    /\ (score_left gl < 10)%Z /\ (score_right gl < 10)%Z)
   \/
   (game_state gl = "game_over"%string /\
    ((winner gl = "left"%string /\ score_left gl = 10%Z
      /\ (score_right gl < 10)%Z)
     \/ (winner gl = "right"%string /\ score_right gl = 10%Z
         /\ (score_left gl < 10)%Z)))).

(** A paddle of [main]: the geometry of the constructor, a position between
    the border bands, a glow between 0 and 100. *)
Definition paddle_as_built (px : R) (p : Paddle.t) : Prop :=
  Paddle.x p = px /\ Paddle.width p = 15%Z /\ Paddle.height p = 80%Z /\
  Paddle.speed p = 6%Z /\ in_bounds p /\
  (0 <= Paddle.glow_intensity p <= 100)%Z.

(** The ball of [main]: inside the playfield's width, radius 12, a trail of
    at most 15 positions. *)
Definition ball_in_field (b : Ball.t) : Prop :=
  0 <= Ball.x b <= IZR WIDTH /\ Ball.radius b = 12%Z /\
  Trail.max_length (Ball.trail b) = 15%nat /\ trail_bounded (Ball.trail b).

(** The paddles and the ball of a run. *)
Definition entities_as_built (w : world) : Prop :=
  paddle_as_built 30 (left_paddle w) /\
  paddle_as_built 955 (right_paddle w) /\
  ball_in_field (ball w).

Definition latches (w : world) : bool * bool * bool * bool :=
  (left_up w, left_down w, right_up w, right_down w).

(** A short run of the loop: choose the AI mode, press W, let a frame pass. *)
Definition demo_frames : list frame_input :=
  [FrameInput [KEYDOWN K_2] some_draws;
   FrameInput [KEYDOWN K_w] some_draws;
   FrameInput [] some_draws].

(** The events that end the loop: closing the window, or the Q key. *)
Definition is_quit (e : event) : bool :=
  match e with
  | QUIT | KEYDOWN K_q => true
  | _ => false
  end.


(** * Properties *)

(** ** Comparisons *)

Lemma Rleb_spec (a b : R) : reflect (a <= b) (Rleb a b).
Proof. unfold Rleb. destruct (Rle_dec a b); constructor; assumption. Qed.

Lemma Rltb_spec (a b : R) : reflect (a < b) (Rltb a b).
Proof. unfold Rltb. destruct (Rlt_dec a b); constructor; assumption. Qed.

Lemma Rleb_true (a b : R) : a <= b -> Rleb a b = true.
Proof. intros H. destruct (Rleb_spec a b); [reflexivity | contradiction]. Qed.

Lemma Rleb_false (a b : R) : b < a -> Rleb a b = false.
Proof. intros H. destruct (Rleb_spec a b); [lra | reflexivity]. Qed.

Lemma Rltb_true (a b : R) : a < b -> Rltb a b = true.
Proof. intros H. destruct (Rltb_spec a b); [reflexivity | contradiction]. Qed.

Lemma Rltb_false (a b : R) : b <= a -> Rltb a b = false.
Proof. intros H. destruct (Rltb_spec a b); [lra | reflexivity]. Qed.

(** Decide the comparisons of the goal whose outcome [lra] can settle. *)
Ltac decide_cmp :=
  repeat match goal with
  | |- context [Rleb ?a ?b] =>
      first [ rewrite (Rleb_true a b) by lra
            | rewrite (Rleb_false a b) by lra ]
  | |- context [Rltb ?a ?b] =>
      first [ rewrite (Rltb_true a b) by lra
            | rewrite (Rltb_false a b) by lra ]
  end.

(** ** Paddle *)

Lemma clamp_in_bounds (p : Paddle.t) (v : R) :
  20 <= IZR (HEIGHT - 20 - Paddle.height p) ->
  20 <= Paddle.clamp p v <= IZR (HEIGHT - 20 - Paddle.height p).
Proof.
  intros Hb. unfold Paddle.clamp. split.
  - apply Rmax_l.
  - apply Rmax_lub; [exact Hb | apply Rmin_l].
Qed.

Lemma do_call_height (p : Paddle.t) (c : paddle_call) :
  Paddle.height (do_call p c) = Paddle.height p.
Proof. destruct c; reflexivity. Qed.

Lemma do_call_y (p : Paddle.t) (c : paddle_call) :
  exists v, Paddle.y (do_call p c) = Paddle.clamp p v.
Proof. destruct c; eexists; reflexivity. Qed.

Lemma do_call_in_bounds (p : Paddle.t) (c : paddle_call) :
  in_bounds p -> in_bounds (do_call p c).
Proof.
  intros [Hlo Hhi]. unfold in_bounds.
  rewrite do_call_height. destruct (do_call_y p c) as [v ->].
  apply clamp_in_bounds. lra.
Qed.

(** C3.  A paddle that starts between the border bands stays there after
    every call of any sequence of [move] and [ai_move] calls, whatever the
    arguments (and the random draw) of each call. *)
Theorem paddle_stays_in_bounds (p : Paddle.t) (cs : list paddle_call) :
  in_bounds p -> Forall in_bounds (call_trace p cs).
Proof.
  revert p. induction cs as [|c cs IH]; intros p Hp; simpl.
  - constructor.
  - pose proof (do_call_in_bounds p c Hp) as H1.
    constructor; [exact H1 | apply IH, H1].
Qed.

Lemma paddle_stays_in_bounds_witness :
  Forall in_bounds
    (call_trace (Paddle.init 30 260 15 80)
       [Move (-1); AiMove 1000 (2 / 10) 1; Move 500; AiMove (-7) 3 0]).
Proof.
  apply (paddle_stays_in_bounds (Paddle.init 30 260 15 80)).
  unfold in_bounds; simpl. unfold HEIGHT. simpl. lra.
Defined.

(** ** Ball: round reset *)

Lemma launch_angle_range (r : R) :
  unit_draw r ->
  - (PI / 6) <= uniform (- PI / 6) (PI / 6) r <= PI / 6.
Proof.
  intros [H0 H1]. unfold uniform.
  pose proof PI_RGT_0 as Hpi. split; nra.
Qed.

Lemma cos_near_horizontal (a : R) :
  - (PI / 6) <= a <= PI / 6 -> cos (PI / 6) <= cos a.
Proof.
  intros [Hlo Hhi]. pose proof PI_RGT_0 as Hpi.
  destruct (Rle_lt_dec 0 a) as [Hpos | Hneg].
  - apply cos_decr_1; lra.
  - rewrite <- (cos_neg a). apply cos_decr_1; lra.
Qed.

Lemma sin_near_horizontal (a : R) :
  - (PI / 6) <= a <= PI / 6 -> Rabs (sin a) <= sin (PI / 6).
Proof.
  intros [Hlo Hhi]. pose proof PI_RGT_0 as Hpi.
  apply Rabs_le. split.
  - rewrite <- sin_neg. apply sin_incr_1; lra.
  - apply sin_incr_1; lra.
Qed.

Lemma cos_PI6_pos : 0 < cos (PI / 6).
Proof. pose proof PI_RGT_0. apply cos_gt_0; lra. Qed.

Lemma polar_norm (s a : R) :
  0 <= s -> sqrt ((s * cos a) ^ 2 + (s * sin a) ^ 2) = s.
Proof.
  intros Hs.
  replace ((s * cos a) ^ 2 + (s * sin a) ^ 2) with (s ^ 2).
  - apply sqrt_pow2, Hs.
  - pose proof (sin2_cos2 a) as H. unfold Rsqr in H. nra.
Qed.

Lemma reset_ball_vx_nonzero (b : Ball.t) (r : R) (flip : bool) :
  unit_draw r -> Ball.vx (Ball.reset_ball b r flip) <> 0.
Proof.
  intros Hr. pose proof (launch_angle_range r Hr) as Ha.
  pose proof (cos_near_horizontal _ Ha) as Hc.
  pose proof cos_PI6_pos as Hp.
  unfold Ball.reset_ball; cbn [Ball.vx].
  destruct flip; [rewrite neg_cos|]; nra.
Qed.

(** C4.  Whatever the ball was and whatever the random draws are,
    [reset_ball] puts the ball at the centre of the playfield with speed 6
    and a velocity of length 6 whose direction is an angle of at most 30
    degrees from the horizontal, possibly turned by 180 degrees. *)
Theorem reset_ball_centered_near_horizontal
    (b : Ball.t) (r : R) (flip : bool) :
  unit_draw r ->
  let b1 := Ball.reset_ball b r flip in
  Ball.x b1 = IZR WIDTH / 2 /\ Ball.y b1 = IZR HEIGHT / 2 /\
  Ball.speed b1 = 6 /\ velocity_norm b1 = 6 /\
  (exists a, - (PI / 6) <= a <= PI / 6 /\
     ((Ball.vx b1 = 6 * cos a /\ Ball.vy b1 = 6 * sin a) \/
      (Ball.vx b1 = 6 * cos (a + PI) /\ Ball.vy b1 = 6 * sin (a + PI)))) /\
  Rabs (Ball.vy b1) <= 6 * sin (PI / 6) /\
  6 * cos (PI / 6) <= Rabs (Ball.vx b1).
Proof.
  intros Hr b1. pose proof (launch_angle_range r Hr) as Ha.
  pose proof (cos_near_horizontal _ Ha) as Hc.
  pose proof (sin_near_horizontal _ Ha) as Hs.
  pose proof cos_PI6_pos as Hp.
  subst b1. unfold velocity_norm, Ball.reset_ball.
  cbn [Ball.x Ball.y Ball.speed Ball.vx Ball.vy].
  repeat split.
  - unfold WIDTH. change (1000 / 2)%Z with 500%Z. lra.
  - unfold HEIGHT. change (600 / 2)%Z with 300%Z. lra.
  - apply polar_norm. lra.
  - exists (uniform (- PI / 6) (PI / 6) r). split; [exact Ha|].
    destruct flip; [right | left]; split; reflexivity.
  - destruct flip; [rewrite neg_sin|].
    + replace (6 * - sin (uniform (- PI / 6) (PI / 6) r))
        with (- (6 * sin (uniform (- PI / 6) (PI / 6) r))) by ring.
      rewrite Rabs_Ropp, Rabs_mult, (Rabs_pos_eq 6) by lra. nra.
    + rewrite Rabs_mult, (Rabs_pos_eq 6) by lra. nra.
  - destruct flip; [rewrite neg_cos|].
    + replace (6 * - cos (uniform (- PI / 6) (PI / 6) r))
        with (- (6 * cos (uniform (- PI / 6) (PI / 6) r))) by ring.
      rewrite Rabs_Ropp, Rabs_pos_eq; nra.
    + rewrite Rabs_pos_eq; nra.
Qed.

Lemma reset_ball_centered_near_horizontal_witness :
  let b1 := Ball.reset_ball (Ball.Make 3 4 12 9 1 1 (Trail.init 15))
                            (1 / 4) true in
  Ball.x b1 = IZR WIDTH / 2 /\ Ball.y b1 = IZR HEIGHT / 2 /\
  Ball.speed b1 = 6 /\ velocity_norm b1 = 6 /\
  (exists a, - (PI / 6) <= a <= PI / 6 /\
     ((Ball.vx b1 = 6 * cos a /\ Ball.vy b1 = 6 * sin a) \/
      (Ball.vx b1 = 6 * cos (a + PI) /\ Ball.vy b1 = 6 * sin (a + PI)))) /\
  Rabs (Ball.vy b1) <= 6 * sin (PI / 6) /\
  6 * cos (PI / 6) <= Rabs (Ball.vx b1).
Proof.
  apply (reset_ball_centered_near_horizontal
           (Ball.Make 3 4 12 9 1 1 (Trail.init 15)) (1 / 4) true).
  unfold unit_draw. lra.
Defined.

(** ** Ball: paddle collision *)

Lemma truediv_some (a b q : R) :
  truediv a b = Some q -> b <> 0 /\ q = a / b.
Proof.
  unfold truediv. destruct (Req_dec_T b 0) as [E | N]; [discriminate|].
  intros H. injection H as <-. split; [exact N | reflexivity].
Qed.

Lemma truediv_total (a b : R) : b <> 0 -> truediv a b = Some (a / b).
Proof.
  intros N. unfold truediv.
  destruct (Req_dec_T b 0) as [E | _]; [contradiction | reflexivity].
Qed.

Lemma bounce_angle_some (b : Ball.t) (p : Paddle.t) (a : R) :
  Ball.bounce_angle b p = Some a ->
  (Paddle.height p / 2 <> 0)%Z /\
  a = (Ball.y b - (Paddle.y p + IZR (Paddle.height p / 2)))
      / IZR (Paddle.height p / 2) * PI / 3.
Proof.
  unfold Ball.bounce_angle, Ball.hit_pos, bind.
  destruct (truediv _ _) as [h|] eqn:E; [|discriminate].
  apply truediv_some in E as [N ->]. intros H. injection H as <-.
  split; [|reflexivity]. intros Z0. apply N. rewrite Z0. reflexivity.
Qed.

Lemma bounce_angle_total (b : Ball.t) (p : Paddle.t) :
  (Paddle.height p / 2 <> 0)%Z ->
  exists a, Ball.bounce_angle b p = Some a.
Proof.
  intros N. unfold Ball.bounce_angle, Ball.hit_pos.
  rewrite truediv_total; [eexists; reflexivity|].
  intros E. apply N. apply eq_IZR. exact E.
Qed.

Lemma speed_magnitude_pos (b : Ball.t) (p : Paddle.t) (a : R) :
  Ball.vx b <> 0 -> 0 < speed_magnitude b p a.
Proof.
  intros N. unfold speed_magnitude. apply sqrt_lt_R0.
  pose proof (Rabs_pos_lt _ N) as Hpos.
  destruct (Rltb _ _); nra.
Qed.

(** A miss changes nothing. *)
Lemma bounce_miss (b : Ball.t) (p : Paddle.t) :
  Ball.overlaps b p = false ->
  Ball.check_paddle_collision b p = Some (false, b, p, []).
Proof. intros H. unfold Ball.check_paddle_collision. rewrite H. reflexivity. Qed.

(** A hit, when no division fails, leaves [rebound]. *)
Lemma bounce_hit (b : Ball.t) (p : Paddle.t) (a : R) :
  Ball.overlaps b p = true ->
  Ball.bounce_angle b p = Some a ->
  speed_magnitude b p a <> 0 ->
  Ball.check_paddle_collision b p =
  Some (true, rebound b p a, Paddle.activate_glow p,
        [Ball.create_particles (rebound b p a) NEON_PINK 15]).
Proof.
  intros Ho Ha Hm. unfold Ball.check_paddle_collision.
  rewrite Ho, Ha. unfold bind. fold (speed_magnitude b p a).
  rewrite !truediv_total by exact Hm. reflexivity.
Qed.

(** Every answer of [check_paddle_collision] is one of the two above. *)
Lemma bounce_inv (b : Ball.t) (p : Paddle.t) (hit : bool)
    (b1 : Ball.t) (p1 : Paddle.t) (log : list burst) :
  Ball.check_paddle_collision b p = Some (hit, b1, p1, log) ->
  (hit = false /\ Ball.overlaps b p = false /\ b1 = b /\ p1 = p /\ log = [])
  \/
  (hit = true /\ Ball.overlaps b p = true /\
   exists a, Ball.bounce_angle b p = Some a /\ speed_magnitude b p a <> 0 /\
             b1 = rebound b p a /\ p1 = Paddle.activate_glow p /\
             log = [Ball.create_particles b1 NEON_PINK 15]).
Proof.
  unfold Ball.check_paddle_collision.
  destruct (Ball.overlaps b p) eqn:Ho.
  - destruct (Ball.bounce_angle b p) as [a|] eqn:Ha; [|discriminate].
    unfold bind. fold (speed_magnitude b p a).
    destruct (truediv _ (speed_magnitude b p a)) as [qx|] eqn:Ex;
      [|discriminate].
    destruct (truediv (Ball.speed b * sin a) _) as [qy|] eqn:Ey;
      [|discriminate].
    apply truediv_some in Ex as [Hm ->]. apply truediv_some in Ey as [_ ->].
    intros H. injection H as <- <- <- <-. right.
    repeat split. exists a. repeat split; assumption.
  - intros H. injection H as <- <- <- <-. left. repeat split.
Qed.

Lemma rebound_norm (b : Ball.t) (p : Paddle.t) (a : R) :
  speed_magnitude b p a <> 0 ->
  velocity_norm (rebound b p a) = Rabs (Ball.speed (rebound b p a)).
Proof.
  unfold velocity_norm, rebound, speed_magnitude.
  cbn [Ball.vx Ball.vy Ball.speed].
  set (vx1 := if Rltb _ _ then _ else _).
  set (vy1 := Ball.speed b * sin a).
  set (s := Rmin 12 _).
  set (q := vx1 ^ 2 + vy1 ^ 2).
  intros Hm.
  assert (Hq : 0 <= q) by (unfold q; nra).
  replace ((vx1 / sqrt q * s) ^ 2 + (vy1 / sqrt q * s) ^ 2)
    with (s ^ 2 * (q / sqrt q ^ 2)) by (unfold q; field; exact Hm).
  rewrite pow2_sqrt by exact Hq.
  assert (Hq0 : q <> 0).
  { intros E. apply Hm. rewrite E. apply sqrt_0. }
  replace (s ^ 2 * (q / q)) with (Rsqr s) by (unfold Rsqr; field; exact Hq0).
  apply sqrt_Rsqr_abs.
Qed.

Lemma rebound_vx_nonzero (b : Ball.t) (p : Paddle.t) (a : R) :
  Ball.vx b <> 0 -> 0 <= Ball.speed b ->
  Ball.vx (rebound b p a) <> 0.
Proof.
  intros N Hs. pose proof (speed_magnitude_pos b p a N) as Hm.
  unfold rebound. cbn [Ball.vx]. fold (speed_magnitude b p a).
  pose proof (Rabs_pos_lt _ N) as Hpos.
  assert (Hs1 : 0 < Rmin 12 (Ball.speed b + 2 / 10))
    by (apply Rmin_glb_lt; lra).
  assert (Hi : 0 < / speed_magnitude b p a) by (apply Rinv_0_lt_compat, Hm).
  pose proof (Rmult_lt_0_compat _ _ (Rmult_lt_0_compat _ _ Hpos Hi) Hs1)
    as Hprod.
  unfold Rdiv. destruct (Rltb _ _); intros E; lra.
Qed.

Lemma rebound_speed_range (b : Ball.t) (p : Paddle.t) (a : R) :
  6 <= Ball.speed b <= 12 ->
  Ball.speed b <= Ball.speed (rebound b p a) /\
  6 <= Ball.speed (rebound b p a) <= 12.
Proof.
  intros [Hlo Hhi]. unfold rebound. cbn [Ball.speed].
  unfold Rmin. destruct (Rle_dec _ _); lra.
Qed.

(** ** Ball: what every reachable state satisfies *)

Lemma ball_inv_reset (b : Ball.t) (r : R) (flip : bool) :
  unit_draw r -> ball_inv (Ball.reset_ball b r flip).
Proof.
  intros Hr. split; [apply reset_ball_vx_nonzero, Hr|].
  unfold velocity_norm, Ball.reset_ball. cbn [Ball.speed Ball.vx Ball.vy].
  split; [lra | apply polar_norm; lra].
Qed.

Lemma ball_inv_update (b : Ball.t) (gl : globals) (r : R) (flip : bool) :
  ball_inv b -> unit_draw r ->
  ball_inv (fst (fst (Ball.update b gl r flip))).
Proof.
  intros (Hv & Hs & Hn) Hr. unfold Ball.update.
  destruct (Ball.at_wall _); cbn [Ball.x Ball.y Ball.vx Ball.vy];
    destruct (Rltb _ 0); cbn [fst];
    try (apply ball_inv_reset, Hr);
    destruct (Rltb _ _); cbn [fst];
    try (apply ball_inv_reset, Hr);
    (split; [exact Hv | split; [exact Hs|]]);
    unfold velocity_norm in *; cbn [Ball.vx Ball.vy Ball.speed];
    rewrite <- Hn; f_equal; ring.
Qed.

Lemma ball_inv_bounce (b : Ball.t) (p : Paddle.t) (hit : bool)
    (b1 : Ball.t) (p1 : Paddle.t) (log : list burst) :
  ball_inv b ->
  Ball.check_paddle_collision b p = Some (hit, b1, p1, log) ->
  ball_inv b1.
Proof.
  intros (Hv & Hs & Hn) H.
  apply bounce_inv in H
    as [(_ & _ & -> & _) | (_ & _ & a & _ & Hm & -> & _)].
  - repeat split; tauto.
  - destruct (rebound_speed_range b p a Hs) as [_ Hr].
    split; [apply rebound_vx_nonzero; lra | split; [exact Hr|]].
    rewrite rebound_norm by exact Hm. apply Rabs_pos_eq. lra.
Qed.

Lemma reachable_inv (b : Ball.t) : reachable b -> ball_inv b.
Proof.
  induction 1 as [b r flip Hr | b gl r flip _ IH Hr | b p hit b1 p1 log _ IH H].
  - apply ball_inv_reset, Hr.
  - apply ball_inv_update; assumption.
  - eapply ball_inv_bounce; eassumption.
Qed.

(** A reachable ball that overlaps a paddle of the program bounces: no
    division fails. *)
Lemma bounce_defined (b : Ball.t) (p : Paddle.t) :
  Ball.vx b <> 0 -> (Paddle.height p / 2 <> 0)%Z ->
  exists hit b1 p1 log,
    Ball.check_paddle_collision b p = Some (hit, b1, p1, log).
Proof.
  intros Hv Hh. destruct (Ball.overlaps b p) eqn:Ho.
  - destruct (bounce_angle_total b p Hh) as [a Ha].
    pose proof (speed_magnitude_pos b p a Hv) as Hm.
    do 4 eexists. apply (bounce_hit b p a Ho Ha). lra.
  - do 4 eexists. apply bounce_miss, Ho.
Qed.

(** C2.  Every ball reachable from a round reset has a speed between 6 and
    12 and a velocity of exactly that length; and whenever
    [check_paddle_collision] reports a hit on a ball whose speed is in that
    range, the velocity again has the length of the speed, the new speed is
    [min(12, speed + 0.2)], it is not below the old one, and it is still
    between 6 and 12. *)
Theorem bounce_keeps_speed_invariant :
  (forall b, reachable b ->
     6 <= Ball.speed b <= 12 /\ velocity_norm b = Ball.speed b) /\
  (forall (b : Ball.t) (p : Paddle.t)
          (b1 : Ball.t) (p1 : Paddle.t) (log : list burst),
     6 <= Ball.speed b <= 12 ->
     Ball.check_paddle_collision b p = Some (true, b1, p1, log) ->
     velocity_norm b1 = Ball.speed b1 /\
     Ball.speed b1 = Rmin 12 (Ball.speed b + 2 / 10) /\
     Ball.speed b <= Ball.speed b1 /\
     6 <= Ball.speed b1 <= 12).
Proof.
  split.
  - intros b Hb. destruct (reachable_inv b Hb) as (_ & Hs & Hn).
    split; assumption.
  - intros b p b1 p1 log Hs H.
    apply bounce_inv in H
      as [(Hf & _) | (_ & _ & a & _ & Hm & -> & _)]; [discriminate|].
    destruct (rebound_speed_range b p a Hs) as [Hmono Hr].
    rewrite rebound_norm by exact Hm.
    split; [apply Rabs_pos_eq; lra|].
    split; [reflexivity|]. split; assumption.
Qed.

Lemma centre_ball_overlaps : Ball.overlaps centre_ball centre_paddle = true.
Proof.
  unfold Ball.overlaps, centre_ball, centre_paddle, Ball.reset_ball,
    Paddle.init, WIDTH, HEIGHT.
  cbn [Ball.x Ball.y Ball.radius Paddle.x Paddle.y Paddle.width Paddle.height].
  change (1000 / 2)%Z with 500%Z. change (600 / 2)%Z with 300%Z.
  decide_cmp. reflexivity.
Qed.

Lemma centre_ball_reachable : reachable centre_ball.
Proof. apply reach_reset. unfold unit_draw. lra. Qed.

Lemma centre_ball_bounces :
  exists b1 log,
    Ball.check_paddle_collision centre_ball centre_paddle
    = Some (true, b1, Paddle.activate_glow centre_paddle, log).
Proof.
  assert (Hh : (Paddle.height centre_paddle / 2 <> 0)%Z) by discriminate.
  destruct (bounce_angle_total centre_ball centre_paddle Hh) as [a Ha].
  destruct (reachable_inv _ centre_ball_reachable) as (Hv & _).
  pose proof (speed_magnitude_pos centre_ball centre_paddle a Hv) as Hm.
  do 2 eexists. apply (bounce_hit _ _ a centre_ball_overlaps Ha). lra.
Qed.

Lemma bounce_keeps_speed_invariant_witness :
  exists b1 p1 log,
    Ball.check_paddle_collision centre_ball centre_paddle
    = Some (true, b1, p1, log) /\
    velocity_norm b1 = Ball.speed b1 /\
    Ball.speed b1 = Rmin 12 (Ball.speed centre_ball + 2 / 10) /\
    Ball.speed centre_ball <= Ball.speed b1 /\
    6 <= Ball.speed b1 <= 12.
Proof.
  destruct centre_ball_bounces as (b1 & log & H).
  exists b1, (Paddle.activate_glow centre_paddle), log.
  split; [exact H|].
  apply (proj2 bounce_keeps_speed_invariant centre_ball centre_paddle
               b1 (Paddle.activate_glow centre_paddle) log).
  - apply (proj1 bounce_keeps_speed_invariant centre_ball).
    apply reach_reset. unfold unit_draw. lra.
  - exact H.
Defined.

(** ** Ball: the bounce angle *)

(** A hit at the paddle's vertical centre leaves the ball flying
    horizontally. *)
Lemma centre_hit_is_horizontal (b : Ball.t) (p : Paddle.t)
    (b1 : Ball.t) (p1 : Paddle.t) (log : list burst) :
  Ball.check_paddle_collision b p = Some (true, b1, p1, log) ->
  Ball.y b = Paddle.y p + IZR (Paddle.height p / 2) ->
  Ball.bounce_angle b p = Some 0 /\ Ball.vy b1 = 0.
Proof.
  intros H Hy.
  apply bounce_inv in H
    as [(Hf & _) | (_ & _ & a & Ha & Hm & -> & _)]; [discriminate|].
  destruct (bounce_angle_some b p a Ha) as [Hh Ea].
  assert (E0 : a = 0).
  { rewrite Ea, Hy. unfold Rdiv. ring. }
  subst a. split; [rewrite Ha, E0; reflexivity|].
  unfold rebound. cbn [Ball.vy]. rewrite E0, sin_0. unfold Rdiv. ring.
Qed.

(** While the centre of the ball is between the paddle's top edge and the
    point as far below the paddle's centre, the angle stays within 60
    degrees. *)
Lemma bounce_angle_within_paddle (b : Ball.t) (p : Paddle.t) (a : R) :
  Ball.bounce_angle b p = Some a ->
  (0 < Paddle.height p / 2)%Z ->
  Paddle.y p <= Ball.y b <= Paddle.y p + 2 * IZR (Paddle.height p / 2) ->
  - (PI / 3) <= a <= PI / 3.
Proof.
  intros Ha Hh [Hlo Hhi].
  destruct (bounce_angle_some b p a Ha) as [_ ->].
  apply IZR_lt in Hh. set (h := IZR (Paddle.height p / 2)) in *.
  pose proof PI_RGT_0 as Hpi.
  assert (Hq : -1 <= (Ball.y b - (Paddle.y p + h)) / h <= 1).
  { split.
    - apply Rmult_le_reg_r with h; [exact Hh|].
      unfold Rdiv. rewrite Rmult_assoc, Rinv_l by lra. lra.
    - apply Rmult_le_reg_r with h; [exact Hh|].
      unfold Rdiv. rewrite Rmult_assoc, Rinv_l by lra. lra. }
  split; nra.
Qed.

(** C1.  The overlap test admits a ball whose centre is below the paddle's
    bottom edge; there [hit_pos] is 1.2 and the bounce angle is 72 degrees,
    beyond the 60 degrees the comment in the code gives as the maximum. *)
Theorem edge_hit_exceeds_sixty_degrees :
  Ball.overlaps edge_ball edge_paddle = true /\
  Ball.hit_pos edge_ball edge_paddle = Some (12 / 10) /\
  Ball.bounce_angle edge_ball edge_paddle = Some (12 / 10 * PI / 3) /\
  PI / 3 < 12 / 10 * PI / 3 /\
  exists b1 log,
    Ball.check_paddle_collision edge_ball edge_paddle
    = Some (true, b1, Paddle.activate_glow edge_paddle, log).
Proof.
  assert (Ho : Ball.overlaps edge_ball edge_paddle = true).
  { unfold Ball.overlaps, edge_ball, edge_paddle.
    cbn [Ball.x Ball.y Ball.radius
         Paddle.x Paddle.y Paddle.width Paddle.height].
    decide_cmp. reflexivity. }
  assert (Hh : Ball.hit_pos edge_ball edge_paddle = Some (12 / 10)).
  { unfold Ball.hit_pos, edge_ball, edge_paddle.
    cbn [Ball.y Paddle.y Paddle.height]. change (80 / 2)%Z with 40%Z.
    rewrite truediv_total by lra. f_equal. lra. }
  assert (Ha : Ball.bounce_angle edge_ball edge_paddle
               = Some (12 / 10 * PI / 3)).
  { unfold Ball.bounce_angle. rewrite Hh. reflexivity. }
  pose proof PI_RGT_0 as Hpi.
  repeat split; try assumption; [lra|].
  assert (Hv : Ball.vx edge_ball <> 0) by (unfold edge_ball; simpl; lra).
  pose proof (speed_magnitude_pos edge_ball edge_paddle
                (12 / 10 * PI / 3) Hv) as Hm.
  do 2 eexists. apply (bounce_hit _ _ _ Ho Ha). lra.
Qed.

(** ** Ball: one call of [update] *)

(** The corner ball both bounces off the top band and scores for the right
    side in one call of [update]. *)
Lemma wall_bounce_and_score_in_one_update :
  let '(b1, g1, log) :=
    Ball.update corner_ball (playing_globals 0 0 "player_vs_player")
                (1 / 2) false in
  has_burst ORANGE log = true /\ has_burst RED log = true /\
  List.length log = 2%nat /\
  score_right g1 = 1%Z /\ b1 = Ball.reset_ball b1 (1 / 2) false.
Proof.
  unfold Ball.update, corner_ball, Ball.at_wall, HEIGHT.
  cbn [Ball.x Ball.y Ball.vx Ball.vy Ball.radius].
  change (600 - 20)%Z with 580%Z.
  decide_cmp. cbn [orb]. cbn [Ball.x Ball.y Ball.vx Ball.vy Ball.radius].
  decide_cmp. repeat split.
Qed.

Lemma has_burst_app (c : color) (l1 l2 : list burst) :
  has_burst c (l1 ++ l2) = has_burst c l1 || has_burst c l2.
Proof. unfold has_burst. apply existsb_app. Qed.

(** C6 (amended).  In one call of [update] the wall test reads only the
    integrated y and the side test only the integrated x: the ball bounces
    exactly when it touches a band, a point is scored exactly when it
    leaves through a side, and the one never decides the other; without a
    score the bounce flips the sign of [vy] and nothing else of the
    velocity. *)
Theorem wall_bounce_and_score_are_independent
    (b : Ball.t) (gl : globals) (r : R) (flip : bool) :
  let '(b1, g1, log) := Ball.update b gl r flip in
  has_burst ORANGE log = touches_band b /\
  has_burst RED log = exits_left b /\
  has_burst BLUE log = exits_right b /\
  score_right g1 = (score_right gl + if exits_left b then 1 else 0)%Z /\
  score_left g1 = (score_left gl + if exits_right b then 1 else 0)%Z /\
  (exits_left b || exits_right b = false ->
   Ball.vx b1 = Ball.vx b /\
   Ball.vy b1 = if touches_band b then - Ball.vy b else Ball.vy b).
Proof.
  unfold Ball.update, touches_band, exits_right, exits_left, Ball.at_wall.
  cbn [Ball.x Ball.y Ball.vx Ball.vy Ball.radius].
  destruct (Rleb _ 20 || Rleb _ _);
    cbn [Ball.x Ball.y Ball.vx Ball.vy Ball.radius];
    destruct (Rltb _ 0); cbn [negb andb orb];
    try destruct (Rltb _ _);
    rewrite ?has_burst_app; cbn;
    repeat split; try lia; try discriminate.
Qed.

Lemma wall_bounce_and_score_are_independent_witness :
  let '(b1, g1, log) :=
    Ball.update band_ball (playing_globals 3 4 "player_vs_ai")
                (1 / 2) false in
  Ball.vx b1 = - (24 / 5) /\ Ball.vy b1 = 18 / 5.
Proof.
  pose proof (wall_bounce_and_score_are_independent
                band_ball (playing_globals 3 4 "player_vs_ai") (1 / 2) false)
    as H.
  destruct (Ball.update _ _ _ _) as [[b1 g1] log].
  destruct H as (_ & _ & _ & _ & _ & H).
  assert (He : exits_left band_ball || exits_right band_ball = false).
  { unfold exits_right, exits_left, band_ball, WIDTH.
    cbn [Ball.x Ball.vx]. decide_cmp. reflexivity. }
  assert (Ht : touches_band band_ball = true).
  { unfold touches_band, band_ball, HEIGHT.
    cbn [Ball.y Ball.vy Ball.radius]. decide_cmp. reflexivity. }
  destruct (H He) as [Hx Hy]. rewrite Ht in Hy.
  split; [exact Hx|]. rewrite Hy. cbn [band_ball Ball.vy]. lra.
Defined.

(** ** Match globals *)

(** C7.  [reset_game] called in phase [game_over] zeroes both scores, goes
    to the menu and clears the mode; called in phase [playing] or [paused]
    it zeroes both scores, goes to [playing] and keeps the mode. *)
Theorem reset_game_by_phase (gl : globals) :
  (game_state gl = "game_over"%string ->
   score_left (reset_game gl) = 0%Z /\ score_right (reset_game gl) = 0%Z /\
   game_state (reset_game gl) = "menu"%string /\
   game_mode (reset_game gl) = "none"%string) /\
  (game_state gl = "playing"%string \/ game_state gl = "paused"%string ->
   score_left (reset_game gl) = 0%Z /\ score_right (reset_game gl) = 0%Z /\
   game_state (reset_game gl) = "playing"%string /\
   game_mode (reset_game gl) = game_mode gl).
Proof.
  destruct gl as [sl sr ms gs wn gm]. unfold reset_game. cbn.
  split.
  - intros ->. cbn. repeat split.
  - intros [-> | ->]; cbn; repeat split.
Qed.

Lemma reset_game_by_phase_witness :
  (let gl := Globals 10 7 10 "game_over" "left" "player_vs_ai" in
   score_left (reset_game gl) = 0%Z /\ score_right (reset_game gl) = 0%Z /\
   game_state (reset_game gl) = "menu"%string /\
   game_mode (reset_game gl) = "none"%string) /\
  (let gl := Globals 4 7 10 "paused" "" "player_vs_ai" in
   score_left (reset_game gl) = 0%Z /\ score_right (reset_game gl) = 0%Z /\
   game_state (reset_game gl) = "playing"%string /\
   game_mode (reset_game gl) = game_mode gl).
Proof.
  split.
  - apply (proj1 (reset_game_by_phase
                    (Globals 10 7 10 "game_over" "left" "player_vs_ai"))).
    reflexivity.
  - apply (proj2 (reset_game_by_phase
                    (Globals 4 7 10 "paused" "" "player_vs_ai"))).
    right. reflexivity.
Defined.

(** ** The frame loop: what each stage leaves alone *)

Lemma same_but_glow_refl (p : Paddle.t) : same_but_glow p p.
Proof. reflexivity. Qed.

Lemma same_but_glow_trans (p q r : Paddle.t) :
  same_but_glow p q -> same_but_glow q r -> same_but_glow p r.
Proof. unfold same_but_glow. congruence. Qed.

Lemma same_but_glow_set (p : Paddle.t) (v : Z) :
  same_but_glow (Paddle.set_glow p v) p.
Proof. reflexivity. Qed.

Lemma same_but_glow_draw (p : Paddle.t) : same_but_glow (Paddle.draw p) p.
Proof. unfold Paddle.draw. destruct (0 <? _)%Z; reflexivity. Qed.

Create HintDb glow.
#[local] Hint Resolve same_but_glow_refl same_but_glow_set
  same_but_glow_draw : glow.

Lemma same_but_glow_y (p q : Paddle.t) :
  same_but_glow p q -> Paddle.y p = Paddle.y q.
Proof.
  unfold same_but_glow. intros H.
  change (Paddle.y (Paddle.set_glow p 0) = Paddle.y (Paddle.set_glow q 0)).
  rewrite H. reflexivity.
Qed.

Lemma same_but_glow_height (p q : Paddle.t) :
  same_but_glow p q -> Paddle.height p = Paddle.height q.
Proof.
  unfold same_but_glow. intros H.
  change (Paddle.height (Paddle.set_glow p 0)
          = Paddle.height (Paddle.set_glow q 0)).
  rewrite H. reflexivity.
Qed.

Lemma bounce_paddle (b : Ball.t) (p : Paddle.t) (hit : bool)
    (b1 : Ball.t) (p1 : Paddle.t) (log : list burst) :
  Ball.check_paddle_collision b p = Some (hit, b1, p1, log) ->
  same_but_glow p1 p.
Proof.
  intros H. apply bounce_inv in H
    as [(_ & _ & _ & -> & _) | (_ & _ & a & _ & _ & _ & -> & _)].
  - auto with glow.
  - apply same_but_glow_set.
Qed.

(** Event handling touches neither the paddles nor the ball. *)
Lemma handle_event_entities (w : world) (e : event) :
  left_paddle (handle_event w e) = left_paddle w /\
  right_paddle (handle_event w e) = right_paddle w /\
  ball (handle_event w e) = ball w.
Proof.
  destruct e as [|k|k|]; cbn [handle_event]; try (repeat split; reflexivity).
  - unfold on_keydown.
    repeat match goal with
    | |- context [if ?c then _ else _] => destruct c
    end; repeat split; reflexivity.
  - unfold on_keyup.
    repeat match goal with
    | |- context [if ?c then _ else _] => destruct c
    end; repeat split; reflexivity.
Qed.

Lemma handle_events_entities (es : list event) (w : world) :
  left_paddle (handle_events w es) = left_paddle w /\
  right_paddle (handle_events w es) = right_paddle w /\
  ball (handle_events w es) = ball w.
Proof.
  revert w. induction es as [|e es IH]; intros w; cbn.
  - repeat split.
  - destruct (IH (handle_event w e)) as (H1 & H2 & H3).
    destruct (handle_event_entities w e) as (E1 & E2 & E3).
    unfold handle_events in *. rewrite H1, H2, H3. auto.
Qed.

(** Reduce the projections and setters of [world], and nothing else. *)
Ltac world_simpl :=
  cbn [g left_paddle right_paddle ball left_up left_down right_up right_down
       running set_g set_left_paddle set_right_paddle set_ball
       set_left_up set_left_down set_right_up set_right_down set_running].

(** Moving the paddles leaves the globals, the ball and the latched keys
    alone, and changes no paddle's height. *)
Lemma move_paddles_frame (w : world) (d : draws) :
  let w1 := move_paddles w d in
  g w1 = g w /\ ball w1 = ball w /\
  Paddle.height (left_paddle w1) = Paddle.height (left_paddle w) /\
  Paddle.height (right_paddle w1) = Paddle.height (right_paddle w) /\
  left_up w1 = left_up w /\ left_down w1 = left_down w /\
  right_up w1 = right_up w /\ right_down w1 = right_down w /\
  running w1 = running w.
Proof.
  destruct w as [gl lp rp b lu ld ru rd run].
  cbv zeta. unfold move_paddles, mode_is.
  destruct lu, ld, ru, rd; world_simpl;
    destruct (game_mode gl =? "player_vs_player")%string;
    try destruct (game_mode gl =? "player_vs_ai")%string;
    repeat split; reflexivity.
Qed.

(** Without a mode neither control branch runs: the right paddle stays. *)
Lemma move_paddles_modeless (w : world) (d : draws) :
  game_mode (g w) = "none"%string ->
  right_paddle (move_paddles w d) = right_paddle w.
Proof.
  destruct w as [gl lp rp b lu ld ru rd run]. world_simpl.
  intros Hm. unfold move_paddles, mode_is.
  destruct lu, ld; world_simpl; rewrite Hm; reflexivity.
Qed.

(** The three steps of [ball_step], spelled out. *)
Lemma ball_step_inv (w : world) (d : draws) (w1 : world) (log : list burst) :
  ball_step w d = Some (w1, log) ->
  exists b0 gl log0 h1 b1 p1 log1 h2 b2 p2 log2,
    Ball.update (ball w) (g w) (angle_draw d) (flip_draw d) = (b0, gl, log0) /\
    Ball.check_paddle_collision b0 (left_paddle w) = Some (h1, b1, p1, log1) /\
    Ball.check_paddle_collision b1 (right_paddle w) = Some (h2, b2, p2, log2) /\
    w1 = World gl p1 p2 b2 (left_up w) (left_down w)
               (right_up w) (right_down w) (running w) /\
    log = (log0 ++ log1 ++ log2)%list.
Proof.
  unfold ball_step.
  destruct (Ball.update _ _ _ _) as [[b0 gl] log0].
  cbn [ball set_g set_ball left_paddle].
  destruct (Ball.check_paddle_collision b0 _)
    as [[[[h1 b1] p1] log1]|] eqn:E1; [|discriminate].
  cbn [bind ball set_g set_ball set_left_paddle right_paddle].
  destruct (Ball.check_paddle_collision b1 _)
    as [[[[h2 b2] p2] log2]|] eqn:E2; [|discriminate].
  cbn [bind]. intros H. injection H as <- <-.
  exists b0, gl, log0, h1, b1, p1, log1, h2, b2, p2, log2.
  repeat split; assumption.
Qed.

Lemma ball_step_total_inv (w : world) (d : draws) :
  paddles_sound w ->
  ball_inv (fst (fst (Ball.update (ball w) (g w)
                                  (angle_draw d) (flip_draw d)))) ->
  exists w1 log, ball_step w d = Some (w1, log).
Proof.
  intros [Hl Hr] Hb0. unfold ball_step.
  destruct (Ball.update _ _ _ _) as [[b0 gl] log0]. cbn [fst] in Hb0.
  world_simpl.
  destruct (bounce_defined b0 (left_paddle w) (proj1 Hb0) Hl)
    as (h1 & b1 & p1 & log1 & E1).
  rewrite E1. cbn [bind]. world_simpl.
  pose proof (ball_inv_bounce _ _ _ _ _ _ Hb0 E1) as Hb1.
  destruct (bounce_defined b1 (right_paddle w) (proj1 Hb1) Hr)
    as (h2 & b2 & p2 & log2 & E2).
  rewrite E2. cbn [bind]. do 2 eexists. reflexivity.
Qed.

Lemma ball_step_total (w : world) (d : draws) :
  world_ok w -> unit_draw (angle_draw d) ->
  exists w1 log, ball_step w d = Some (w1, log).
Proof.
  intros [Hb Hp] Hd. apply ball_step_total_inv; [exact Hp|].
  apply reachable_inv, reach_update; assumption.
Qed.

Lemma ball_step_ok (w : world) (d : draws) (w1 : world) (log : list burst) :
  world_ok w -> unit_draw (angle_draw d) ->
  ball_step w d = Some (w1, log) -> world_ok w1.
Proof.
  intros [Hb [Hl Hr]] Hd H.
  apply ball_step_inv in H
    as (b0 & gl & log0 & h1 & b1 & p1 & log1 & h2 & b2 & p2 & log2
        & E0 & E1 & E2 & -> & _).
  pose proof (reach_update _ (g w) _ (flip_draw d) Hb Hd) as Hb0.
  rewrite E0 in Hb0. cbn [fst] in Hb0.
  pose proof (reach_collision _ _ _ _ _ _ Hb0 E1) as Hb1.
  pose proof (reach_collision _ _ _ _ _ _ Hb1 E2) as Hb2.
  split; [exact Hb2|]. unfold paddles_sound. cbn [left_paddle right_paddle].
  rewrite (same_but_glow_height _ _ (bounce_paddle _ _ _ _ _ _ E1)).
  rewrite (same_but_glow_height _ _ (bounce_paddle _ _ _ _ _ _ E2)).
  split; assumption.
Qed.

(** [check_win] only ever writes the phase and the winner. *)
Lemma check_win_frame (gl : globals) :
  score_left (check_win gl) = score_left gl /\
  score_right (check_win gl) = score_right gl /\
  max_score (check_win gl) = max_score gl /\
  game_mode (check_win gl) = game_mode gl /\
  (game_state (check_win gl) = game_state gl \/
   game_state (check_win gl) = "game_over"%string).
Proof.
  unfold check_win.
  destruct (max_score gl <=? score_left gl)%Z;
    [|destruct (max_score gl <=? score_right gl)%Z];
    cbn; repeat split; auto.
Qed.

Lemma update_globals_frame (b : Ball.t) (gl : globals) (r : R) (flip : bool) :
  let gl1 := snd (fst (Ball.update b gl r flip)) in
  max_score gl1 = max_score gl /\ game_state gl1 = game_state gl /\
  winner gl1 = winner gl /\ game_mode gl1 = game_mode gl.
Proof.
  cbv zeta. unfold Ball.update.
  destruct (Ball.at_wall _); cbn [Ball.x];
    destruct (Rltb _ 0); try destruct (Rltb _ _);
    repeat split; reflexivity.
Qed.

Lemma drawing_frame (w : world) :
  g (drawing w) = g w /\ ball (drawing w) = ball w /\
  same_but_glow (left_paddle (drawing w)) (left_paddle w) /\
  same_but_glow (right_paddle (drawing w)) (right_paddle w) /\
  left_up (drawing w) = left_up w /\ left_down (drawing w) = left_down w /\
  right_up (drawing w) = right_up w /\ right_down (drawing w) = right_down w /\
  running (drawing w) = running w.
Proof.
  unfold drawing.
  destruct (state_is w "menu");
    [|destruct (state_is w "playing" || state_is w "paused"
                || state_is w "game_over")];
    cbn; repeat split; auto with glow.
Qed.

Lemma drawing_ok (w : world) : world_ok w -> world_ok (drawing w).
Proof.
  intros [Hb [Hl Hr]].
  destruct (drawing_frame w) as (_ & Eb & El & Er & _).
  split; [rewrite Eb; exact Hb|]. unfold paddles_sound.
  rewrite (same_but_glow_height _ _ El), (same_but_glow_height _ _ Er).
  split; assumption.
Qed.

(** ** The frame loop: no frame raises *)

Lemma handle_events_ok (w : world) (es : list event) :
  world_ok w -> world_ok (handle_events w es).
Proof.
  intros [Hb [Hl Hr]].
  destruct (handle_events_entities es w) as (El & Er & Eb).
  unfold world_ok, paddles_sound. rewrite El, Er, Eb. auto.
Qed.

Lemma move_paddles_ok (w : world) (d : draws) :
  world_ok w -> world_ok (move_paddles w d).
Proof.
  intros [Hb [Hl Hr]].
  destruct (move_paddles_frame w d) as (_ & Eb & El & Er & _).
  unfold world_ok, paddles_sound. rewrite Eb, El, Er. auto.
Qed.

Lemma play_inv (w : world) (d : draws) (w1 : world) (log : list burst) :
  play w d = Some (w1, log) ->
  exists w0, ball_step (move_paddles w d) d = Some (w0, log) /\
             w1 = set_g w0 (check_win (g w0)).
Proof.
  unfold play. destruct (ball_step _ _) as [[w0 log0]|]; [|discriminate].
  cbn [bind]. intros H. injection H as <- <-. exists w0. auto.
Qed.

Lemma play_total (w : world) (d : draws) :
  world_ok w -> unit_draw (angle_draw d) ->
  exists w1 log, play w d = Some (w1, log) /\ world_ok w1.
Proof.
  intros Hw Hd. pose proof (move_paddles_ok w d Hw) as Hw1.
  destruct (ball_step_total _ d Hw1 Hd) as (w0 & log & E).
  pose proof (ball_step_ok _ _ _ _ Hw1 Hd E) as Hw0.
  unfold play. rewrite E. cbn [bind]. do 2 eexists.
  split; [reflexivity|]. exact Hw0.
Qed.

Lemma game_logic_total (w : world) (d : draws) :
  world_ok w -> unit_draw (angle_draw d) ->
  exists w1 log, game_logic w d = Some (w1, log) /\ world_ok w1.
Proof.
  intros Hw Hd. unfold game_logic. destruct (state_is w "playing").
  - apply play_total; assumption.
  - do 2 eexists. split; [reflexivity | exact Hw].
Qed.

Lemma frame_total (w : world) (i : frame_input) :
  world_ok w -> fair_draws (rnd i) ->
  exists w1 log, frame w i = Some (w1, log) /\ world_ok w1.
Proof.
  intros Hw [_ Hd]. unfold frame.
  destruct (game_logic_total _ (rnd i) (handle_events_ok w (events i) Hw) Hd)
    as (w1 & log & E & Hw1).
  rewrite E. cbn [bind]. do 2 eexists.
  split; [reflexivity | apply drawing_ok, Hw1].
Qed.

Lemma main_loop_total (fs : list frame_input) (w : world) :
  world_ok w -> Forall (fun i => fair_draws (rnd i)) fs ->
  exists w1, main_loop w fs = Some w1 /\ world_ok w1.
Proof.
  revert w. induction fs as [|i fs IH]; intros w Hw Hfs; cbn [main_loop].
  - exists w. auto.
  - inversion Hfs as [|? ? Hi Hrest]; subst.
    destruct (running w); [|exists w; auto].
    destruct (frame_total w i Hw Hi) as (w1 & log & E & Hw1).
    rewrite E. cbn [bind fst]. apply IH; assumption.
Qed.

Lemma initial_world_ok (r : R) (flip : bool) :
  unit_draw r -> world_ok (initial_world r flip).
Proof.
  intros Hr. split.
  - exact (reach_reset (Ball.Make (IZR (WIDTH / 2)) (IZR (HEIGHT / 2)) 12
                                  0 0 0 (Trail.init 15)) r flip Hr).
  - split; discriminate.
Qed.

(** C9.  No operation of the core raises.  [move], [ai_move], [update] and
    the event handling are total functions; the one partial operation,
    [check_paddle_collision], never divides by zero on a ball reachable
    from a round reset (the velocity magnitude it divides by is not zero)
    and a paddle as [main] builds them; and the frame loop, started from
    the objects [main] creates or from any such world, runs any sequence
    of frames to the end. *)
Theorem simulation_core_never_raises :
  (forall b p a, reachable b -> speed_magnitude b p a <> 0) /\
  (forall b p, reachable b -> (Paddle.height p / 2 <> 0)%Z ->
     exists hit b1 p1 log,
       Ball.check_paddle_collision b p = Some (hit, b1, p1, log)) /\
  (forall r flip, unit_draw r -> world_ok (initial_world r flip)) /\
  (forall w fs, world_ok w -> Forall (fun i => fair_draws (rnd i)) fs ->
     exists w1, main_loop w fs = Some w1 /\ world_ok w1).
Proof.
  split; [|split; [|split]].
  - intros b p a Hb E. destruct (reachable_inv b Hb) as (Hv & _).
    pose proof (speed_magnitude_pos b p a Hv). lra.
  - intros b p Hb Hh. destruct (reachable_inv b Hb) as (Hv & _).
    apply bounce_defined; assumption.
  - exact initial_world_ok.
  - intros w fs Hw Hfs. apply main_loop_total; assumption.
Qed.

Lemma simulation_core_never_raises_witness :
  exists w1,
    main_loop (initial_world (1 / 4) true)
      [FrameInput [KEYDOWN K_2] some_draws;
       FrameInput [KEYDOWN K_w] some_draws;
       FrameInput [] some_draws] = Some w1 /\
    world_ok w1.
Proof.
  destruct simulation_core_never_raises as (_ & _ & Hinit & Hloop).
  apply Hloop.
  - apply Hinit. unfold unit_draw. lra.
  - repeat constructor; unfold unit_draw; cbn; lra.
Defined.

(** ** Scoring and the win check *)

Lemma update_exits_left (b : Ball.t) (gl : globals) (r : R) (flip : bool) :
  Ball.x b + Ball.vx b < 0 ->
  exists b0 log,
    Ball.update b gl r flip
    = (Ball.reset_ball b0 r flip, set_score_right gl (score_right gl + 1), log).
Proof.
  intros Hx. unfold Ball.update.
  destruct (Ball.at_wall _); cbn [Ball.x];
    rewrite (Rltb_true _ 0) by exact Hx; do 2 eexists; reflexivity.
Qed.

Lemma update_exits_right (b : Ball.t) (gl : globals) (r : R) (flip : bool) :
  IZR WIDTH < Ball.x b + Ball.vx b ->
  exists b0 log,
    Ball.update b gl r flip
    = (Ball.reset_ball b0 r flip, set_score_left gl (score_left gl + 1), log).
Proof.
  intros Hx. assert (H0 : 0 <= Ball.x b + Ball.vx b).
  { unfold WIDTH in Hx. lra. }
  unfold Ball.update.
  destruct (Ball.at_wall _); cbn [Ball.x];
    rewrite (Rltb_false _ 0) by exact H0;
    rewrite (Rltb_true (IZR WIDTH)) by exact Hx;
    do 2 eexists; reflexivity.
Qed.

Lemma update_stays (b : Ball.t) (gl : globals) (r : R) (flip : bool) :
  0 <= Ball.x b + Ball.vx b <= IZR WIDTH ->
  snd (fst (Ball.update b gl r flip)) = gl /\
  (ball_inv b -> ball_inv (fst (fst (Ball.update b gl r flip)))).
Proof.
  intros [H0 H1]. unfold Ball.update.
  destruct (Ball.at_wall _); cbn [Ball.x];
    rewrite (Rltb_false _ 0) by exact H0;
    rewrite (Rltb_false (IZR WIDTH)) by exact H1;
    (split; [reflexivity|]); cbn [fst];
    intros (Hv & Hs & Hn); (split; [exact Hv | split; [exact Hs|]]);
    unfold velocity_norm in *; cbn [Ball.vx Ball.vy Ball.speed];
    rewrite <- Hn; f_equal; ring.
Qed.

(** In phase [playing] the game logic returns, and its globals are those of
    [update] after the win check. *)
Lemma game_logic_playing (w : world) (d : draws) :
  game_state (g w) = "playing"%string -> paddles_sound w ->
  ball_inv (fst (fst (Ball.update (ball w) (g w)
                                  (angle_draw d) (flip_draw d)))) ->
  exists w1 log,
    game_logic w d = Some (w1, log) /\
    g w1 = check_win (snd (fst (Ball.update (ball w) (g w)
                                            (angle_draw d) (flip_draw d)))).
Proof.
  intros Hs [Hl Hr] Hb. unfold game_logic, state_is. rewrite Hs.
  cbn [String.eqb Ascii.eqb Bool.eqb]. unfold play.
  destruct (move_paddles_frame w d) as (Eg & Eb & El & Er & _).
  assert (Hp : paddles_sound (move_paddles w d)).
  { unfold paddles_sound. rewrite El, Er. auto. }
  rewrite <- Eg, <- Eb in Hb.
  destruct (ball_step_total_inv _ d Hp Hb) as (w0 & log & E).
  rewrite E. cbn [bind]. exists (set_g w0 (check_win (g w0))), log.
  split; [reflexivity|]. world_simpl.
  apply ball_step_inv in E
    as (b0 & gl & log0 & h1 & b1 & p1 & log1 & h2 & b2 & p2 & log2
        & E0 & _ & _ & -> & _).
  world_simpl. rewrite <- Eg, <- Eb, E0. reflexivity.
Qed.

(** With the ball at x = -1 but flying right, [update] brings it back into
    the playfield: nobody scores and the match goes on. *)
Lemma ball_at_minus_one_need_not_score :
  Ball.x (ball (ninth_point_world 6)) = -1 /\
  max_score (g (ninth_point_world 6)) = 10%Z /\
  score_right (g (ninth_point_world 6)) = 9%Z /\
  game_state (g (ninth_point_world 6)) = "playing"%string /\
  exists w1 log,
    game_logic (ninth_point_world 6) some_draws = Some (w1, log) /\
    score_right (g w1) = 9%Z /\
    game_state (g w1) = "playing"%string /\
    winner (g w1) = ""%string.
Proof.
  repeat split.
  assert (Hx : 0 <= Ball.x (ball (ninth_point_world 6))
                    + Ball.vx (ball (ninth_point_world 6)) <= IZR WIDTH).
  { unfold WIDTH. cbn. lra. }
  assert (Hb : ball_inv (ball (ninth_point_world 6))).
  { unfold ball_inv, velocity_norm. cbn [ninth_point_world ball
      Ball.vx Ball.vy Ball.speed].
    split; [lra | split; [lra|]].
    replace (6 ^ 2 + 0 ^ 2) with (6 ^ 2) by ring. apply sqrt_pow2. lra. }
  destruct (update_stays _ (g (ninth_point_world 6)) (angle_draw some_draws)
              (flip_draw some_draws) Hx) as [Eg Hinv].
  destruct (game_logic_playing (ninth_point_world 6) some_draws)
    as (w1 & log & E & Egl).
  - reflexivity.
  - split; discriminate.
  - apply Hinv, Hb.
  - exists w1, log. rewrite Egl, Eg. repeat split. exact E.
Qed.

(** C5 (amended).  In phase [playing], with the left side below the winning
    score: when the ball's integrated x is left of the playfield and the
    right side is one point short, the frame's game logic returns with the
    right score at [max_score], the phase [game_over] and the winner
    [right]; symmetrically for the left side when the integrated x is
    beyond the right edge. *)
Theorem point_at_max_score_ends_the_game (w : world) (d : draws) :
  game_state (g w) = "playing"%string ->
  paddles_sound w -> unit_draw (angle_draw d) ->
  (score_left (g w) < max_score (g w))%Z ->
  (Ball.x (ball w) + Ball.vx (ball w) < 0 ->
   (score_right (g w) + 1 = max_score (g w))%Z ->
   exists w1 log,
     game_logic w d = Some (w1, log) /\
     score_right (g w1) = max_score (g w) /\
     game_state (g w1) = "game_over"%string /\
     winner (g w1) = "right"%string) /\
  (IZR WIDTH < Ball.x (ball w) + Ball.vx (ball w) ->
   (score_left (g w) + 1 = max_score (g w))%Z ->
   exists w1 log,
     game_logic w d = Some (w1, log) /\
     score_left (g w1) = max_score (g w) /\
     game_state (g w1) = "game_over"%string /\
     winner (g w1) = "left"%string).
Proof.
  intros Hs Hp Hd Hsl. split; intros Hx Hsc.
  - destruct (update_exits_left (ball w) (g w) (angle_draw d) (flip_draw d) Hx)
      as (b0 & log0 & E0).
    destruct (game_logic_playing w d Hs Hp) as (w1 & log & E & Eg).
    { rewrite E0. cbn [fst]. apply ball_inv_reset, Hd. }
    exists w1, log. split; [exact E|]. rewrite Eg, E0. cbn [fst snd].
    unfold check_win. cbn [set_score_right max_score score_left score_right].
    destruct (Z.leb_spec (max_score (g w)) (score_left (g w))); [lia|].
    destruct (Z.leb_spec (max_score (g w)) (score_right (g w) + 1)); [|lia].
    cbn. repeat split. lia.
  - destruct (update_exits_right (ball w) (g w) (angle_draw d) (flip_draw d) Hx)
      as (b0 & log0 & E0).
    destruct (game_logic_playing w d Hs Hp) as (w1 & log & E & Eg).
    { rewrite E0. cbn [fst]. apply ball_inv_reset, Hd. }
    exists w1, log. split; [exact E|]. rewrite Eg, E0. cbn [fst snd].
    unfold check_win. cbn [set_score_left max_score score_left score_right].
    destruct (Z.leb_spec (max_score (g w)) (score_left (g w) + 1)); [|lia].
    cbn. repeat split. lia.
Qed.

Lemma point_at_max_score_ends_the_game_witness :
  exists w1 log,
    game_logic (ninth_point_world (-6)) some_draws = Some (w1, log) /\
    score_right (g w1) = 10%Z /\
    game_state (g w1) = "game_over"%string /\
    winner (g w1) = "right"%string.
Proof.
  refine (proj1 (point_at_max_score_ends_the_game
                   (ninth_point_world (-6)) some_draws _ _ _ _) _ _).
  - reflexivity.
  - split; discriminate.
  - unfold unit_draw. cbn. lra.
  - reflexivity.
  - cbn. lra.
  - reflexivity.
Defined.

(** ** Pausing *)

Lemma frozen_refl (w : world) : frozen w w.
Proof. unfold frozen. repeat split; auto with glow. Qed.

Lemma frozen_trans (w1 w2 w3 : world) :
  frozen w1 w2 -> frozen w2 w3 -> frozen w1 w3.
Proof.
  unfold frozen.
  intros (A1 & A2 & A3 & A4 & A5 & A6 & A7 & A8 & A9)
         (B1 & B2 & B3 & B4 & B5 & B6 & B7 & B8 & B9).
  repeat split; try congruence; eapply same_but_glow_trans; eassumption.
Qed.

Lemma frozen_drawing (w : world) : frozen (drawing w) w.
Proof. exact (drawing_frame w). Qed.

Lemma pause_from_playing (w : world) (k : key) :
  game_state (g w) = "playing"%string -> pause_key k ->
  handle_event w (KEYDOWN k) = set_g w (set_game_state (g w) "paused").
Proof.
  destruct w as [[sl sr ms gs wn gm] lp rp b lu ld ru rd run].
  cbn [g game_state]. intros -> [-> | ->]; reflexivity.
Qed.

Lemma resume_from_paused (w : world) (k : key) :
  game_state (g w) = "paused"%string -> pause_key k ->
  handle_event w (KEYDOWN k) = set_g w (set_game_state (g w) "playing").
Proof.
  destruct w as [[sl sr ms gs wn gm] lp rp b lu ld ru rd run].
  cbn [g game_state]. intros -> [-> | ->]; cbn;
    destruct (gm =? "player_vs_player")%string; reflexivity.
Qed.

(** A frame without events, in phase [paused], only fades the glow. *)
Lemma paused_idle_frame (w : world) (d : draws) :
  game_state (g w) = "paused"%string ->
  frame w (idle_frame d) = Some (drawing w, []).
Proof.
  intros Hs. unfold frame, idle_frame, game_logic, state_is.
  cbn [events handle_events fold_left rnd]. rewrite Hs. reflexivity.
Qed.

Lemma paused_idle_loop (ds : list draws) (w : world) :
  game_state (g w) = "paused"%string ->
  exists wp, main_loop w (map idle_frame ds) = Some wp /\ frozen wp w.
Proof.
  revert w. induction ds as [|d ds IH]; intros w Hs; cbn [map main_loop].
  - exists w. split; [reflexivity | apply frozen_refl].
  - destruct (running w); [|exists w; split; [reflexivity | apply frozen_refl]].
    rewrite (paused_idle_frame w d Hs). cbn [bind fst].
    destruct (IH (drawing w)) as (wp & E & Hf).
    { destruct (drawing_frame w) as (-> & _). exact Hs. }
    exists wp. split; [exact E|].
    eapply frozen_trans; [exact Hf | apply frozen_drawing].
Qed.

(** C8.  From phase [playing], two pause toggles bring the phase back to
    [playing] and leave the scores, the ball (position, velocity, speed),
    the paddle positions and the latched keys as they were: delivered back
    to back they leave the whole state unchanged, and with any number of
    event-free frames between them the frames spent in phase [paused] run
    no physics (only the paddles' cosmetic glow fades). *)
Theorem pause_then_resume_changes_nothing
    (w : world) (k1 k2 : key) (d1 : draws) (ds : list draws) :
  game_state (g w) = "playing"%string -> running w = true ->
  pause_key k1 -> pause_key k2 ->
  handle_events w [KEYDOWN k1; KEYDOWN k2] = w /\
  exists wp,
    main_loop w (FrameInput [KEYDOWN k1] d1 :: map idle_frame ds) = Some wp /\
    game_state (g wp) = "paused"%string /\
    game_state (g (handle_event wp (KEYDOWN k2))) = "playing"%string /\
    frozen (handle_event wp (KEYDOWN k2)) w.
Proof.
  intros Hs Hrun Hk1 Hk2.
  pose (w1 := set_g w (set_game_state (g w) "paused")).
  assert (Hs1 : game_state (g w1) = "paused"%string) by reflexivity.
  assert (Hback : set_g w1 (set_game_state (g w1) "playing") = w).
  { destruct w as [[sl sr ms gs wn gm] lp rp b lu ld ru rd run].
    cbn in Hs. subst gs. reflexivity. }
  split.
  - cbn [handle_events fold_left].
    rewrite (pause_from_playing w k1 Hs Hk1).
    fold w1. rewrite (resume_from_paused w1 k2 Hs1 Hk2). exact Hback.
  - cbn [main_loop]. rewrite Hrun.
    unfold frame at 1. cbn [events rnd handle_events fold_left].
    rewrite (pause_from_playing w k1 Hs Hk1). fold w1.
    unfold game_logic, state_is. rewrite Hs1. cbn [String.eqb Ascii.eqb Bool.eqb].
    cbn [bind fst].
    destruct (paused_idle_loop ds (drawing w1)) as (wp & E & Hf).
    { destruct (drawing_frame w1) as (-> & _). exact Hs1. }
    exists wp. split; [exact E|].
    assert (Hf1 : frozen wp w1).
    { eapply frozen_trans; [exact Hf | apply frozen_drawing]. }
    assert (Hsp : game_state (g wp) = "paused"%string).
    { destruct Hf1 as (-> & _). exact Hs1. }
    split; [exact Hsp|].
    rewrite (resume_from_paused wp k2 Hsp Hk2). world_simpl.
    split; [reflexivity|].
    destruct Hf1 as (Eg & Eb & El & Er & F1 & F2 & F3 & F4 & F5).
    unfold frozen. world_simpl. rewrite Eg.
    repeat split; try assumption.
    change (g w1) with (set_game_state (g w) "paused").
    destruct (g w) as [sl sr ms gs wn gm]. cbn in Hs. subst gs. reflexivity.
Qed.

Lemma pause_then_resume_changes_nothing_witness :
  let w := handle_event (initial_world (1 / 2) false) (KEYDOWN K_1) in
  handle_events w [KEYDOWN K_SPACE; KEYDOWN K_p] = w /\
  exists wp,
    main_loop w (FrameInput [KEYDOWN K_SPACE] some_draws
                 :: map idle_frame [some_draws; some_draws]) = Some wp /\
    game_state (g wp) = "paused"%string /\
    game_state (g (handle_event wp (KEYDOWN K_p))) = "playing"%string /\
    frozen (handle_event wp (KEYDOWN K_p)) w.
Proof.
  apply (pause_then_resume_changes_nothing
           (handle_event (initial_world (1 / 2) false) (KEYDOWN K_1))
           K_SPACE K_p some_draws [some_draws; some_draws]).
  - reflexivity.
  - reflexivity.
  - left. reflexivity.
  - right. reflexivity.
Defined.

(** ** A match without a mode *)

(** While a match is on and no mode is chosen, no event chooses one or
    leaves the match. *)
Lemma handle_event_modeless (w : world) (e : event) :
  game_mode (g w) = "none"%string -> game_on w ->
  game_mode (g (handle_event w e)) = "none"%string /\
  game_on (handle_event w e).
Proof.
  destruct w as [[sl sr ms gs wn gm] lp rp b lu ld ru rd run].
  unfold game_on. cbn [g game_mode game_state].
  intros -> [-> | ->]; destruct e as [|k|k|]; try destruct k;
    cbn; auto.
Qed.

Lemma handle_events_modeless (es : list event) (w : world) :
  game_mode (g w) = "none"%string -> game_on w ->
  game_mode (g (handle_events w es)) = "none"%string /\
  game_on (handle_events w es).
Proof.
  revert w. induction es as [|e es IH]; intros w Hm Ho; cbn.
  - auto.
  - destruct (handle_event_modeless w e Hm Ho) as [Hm1 Ho1].
    apply IH; assumption.
Qed.

(** The game logic of a match without a mode: the mode stays, the right
    paddle keeps its position, and the phase stays or becomes [game_over]. *)
Lemma game_logic_modeless (w : world) (d : draws)
    (w1 : world) (log : list burst) :
  game_mode (g w) = "none"%string ->
  game_logic w d = Some (w1, log) ->
  game_mode (g w1) = "none"%string /\
  same_but_glow (right_paddle w1) (right_paddle w) /\
  (game_state (g w1) = game_state (g w) \/
   game_state (g w1) = "game_over"%string).
Proof.
  intros Hm. unfold game_logic. destruct (state_is w "playing").
  - intros H. apply play_inv in H as (w0 & E & ->).
    destruct (move_paddles_frame w d) as (Eg & _).
    pose proof (move_paddles_modeless w d Hm) as Er.
    apply ball_step_inv in E
      as (b0 & gl & log0 & h1 & b1 & p1 & log1 & h2 & b2 & p2 & log2
          & E0 & _ & E2 & -> & _).
    world_simpl.
    pose proof (update_globals_frame (ball (move_paddles w d))
                  (g (move_paddles w d)) (angle_draw d) (flip_draw d)) as Hu.
    rewrite E0 in Hu. cbn [fst snd] in Hu.
    destruct Hu as (_ & Hs & _ & Hgm). rewrite Eg in Hs, Hgm.
    destruct (check_win_frame gl) as (_ & _ & _ & Cm & Cs).
    rewrite Cm, Hgm, <- Hs. split; [exact Hm|]. split; [|exact Cs].
    rewrite <- Er. exact (bounce_paddle _ _ _ _ _ _ E2).
  - intros H. injection H as <- <-.
    split; [exact Hm|]. split; [apply same_but_glow_refl | left; reflexivity].
Qed.

Lemma frame_modeless (w : world) (i : frame_input)
    (w1 : world) (log : list burst) :
  game_mode (g w) = "none"%string -> game_on w ->
  frame w i = Some (w1, log) ->
  game_mode (g w1) = "none"%string /\
  Paddle.y (right_paddle w1) = Paddle.y (right_paddle w) /\
  (game_on w1 \/ game_state (g w1) = "game_over"%string).
Proof.
  intros Hm Ho. unfold frame.
  destruct (handle_events_modeless (events i) w Hm Ho) as [Hm1 Ho1].
  destruct (handle_events_entities (events i) w) as (_ & Er & _).
  destruct (game_logic _ _) as [[w0 log0]|] eqn:E; [|discriminate].
  cbn [bind]. intros H. injection H as <- <-.
  destruct (game_logic_modeless _ _ _ _ Hm1 E) as (Hm0 & Hr0 & Hs0).
  destruct (drawing_frame w0) as (Eg & _ & _ & Hrd & _).
  rewrite Eg. split; [exact Hm0|]. split.
  - rewrite (same_but_glow_y _ _ Hrd), (same_but_glow_y _ _ Hr0), Er.
    reflexivity.
  - unfold game_on in *. rewrite Eg.
    destruct Hs0 as [-> | ->]; [left; exact Ho1 | right; reflexivity].
Qed.

Lemma in_game_run_modeless (w w2 : world) :
  game_mode (g w) = "none"%string ->
  in_game_run w w2 ->
  game_mode (g w2) = "none"%string /\
  Paddle.y (right_paddle w2) = Paddle.y (right_paddle w).
Proof.
  intros Hm Hrun.
  induction Hrun as [|w1 i w2 log _ [IHm IHy] Ho E].
  - auto.
  - destruct (frame_modeless w1 i w2 log IHm Ho E) as (Hm2 & Hy2 & _).
    split; [exact Hm2 | congruence].
Qed.

(** C10.  The reset key pressed in the menu while no mode is chosen starts
    a match: phase [playing], mode still [none], scores (0, 0).  In that
    match, frame after frame for as long as it is on, the mode stays
    [none] and the right paddle never moves. *)
Theorem reset_in_menu_starts_a_modeless_match (w : world) :
  game_state (g w) = "menu"%string -> game_mode (g w) = "none"%string ->
  let w1 := handle_event w (KEYDOWN K_r) in
  game_state (g w1) = "playing"%string /\
  game_mode (g w1) = "none"%string /\
  score_left (g w1) = 0%Z /\ score_right (g w1) = 0%Z /\
  forall w2, in_game_run w1 w2 ->
    game_mode (g w2) = "none"%string /\
    Paddle.y (right_paddle w2) = Paddle.y (right_paddle w1).
Proof.
  intros Hs Hm w1.
  assert (H1 : game_state (g w1) = "playing"%string /\
               game_mode (g w1) = "none"%string /\
               score_left (g w1) = 0%Z /\ score_right (g w1) = 0%Z).
  { subst w1. destruct w as [[sl sr ms gs wn gm] lp rp b lu ld ru rd run].
    cbn in Hs, Hm. subst gs gm. cbn. repeat split. }
  destruct H1 as (Hs1 & Hm1 & Hl1 & Hr1).
  split; [exact Hs1|]. split; [exact Hm1|].
  split; [exact Hl1|]. split; [exact Hr1|].
  intros w2 Hrun. exact (in_game_run_modeless w1 w2 Hm1 Hrun).
Qed.

Lemma reset_in_menu_starts_a_modeless_match_witness :
  let w1 := handle_event (initial_world (1 / 2) false) (KEYDOWN K_r) in
  game_state (g w1) = "playing"%string /\
  game_mode (g w1) = "none"%string /\
  score_left (g w1) = 0%Z /\ score_right (g w1) = 0%Z /\
  forall w2, in_game_run w1 w2 ->
    game_mode (g w2) = "none"%string /\
    Paddle.y (right_paddle w2) = Paddle.y (right_paddle w1).
Proof.
  apply (reset_in_menu_starts_a_modeless_match (initial_world (1 / 2) false));
    reflexivity.
Defined.

(** * Further properties of the code *)

(** ** Trail *)

(** X1.  [add_position] on a trail within its bound keeps the bound: the
    length grows by one up to [max_length] and then stays; at most the
    oldest position is dropped, the others keep their order; and a trail
    with room for at least one position ends with the position added. *)
Theorem add_position_is_a_bounded_queue (tr : Trail.t) (px py : R) :
  trail_bounded tr ->
  let tr1 := Trail.add_position tr px py in
  Trail.max_length tr1 = Trail.max_length tr /\
  List.length (Trail.positions tr1)
  = Nat.min (S (List.length (Trail.positions tr))) (Trail.max_length tr) /\
  (exists dropped,
     (dropped ++ Trail.positions tr1 = Trail.positions tr ++ [(px, py)])%list
     /\ (List.length dropped <= 1)%nat) /\
  ((1 <= Trail.max_length tr)%nat ->
   last (Trail.positions tr1) (0, 0) = (px, py)).
Proof.
  intros Hb. unfold trail_bounded in Hb. cbv zeta. unfold Trail.add_position.
  destruct tr as [ps n]. cbn [Trail.positions Trail.max_length] in *.
  rewrite length_app. cbn [List.length].
  destruct (Nat.ltb_spec n (List.length ps + 1)) as [Hfull | Hroom];
    cbn [Trail.positions Trail.max_length].
  - destruct ps as [|a ps]; cbn [List.length app tl] in *.
    + assert (n = 0%nat) by lia. subst n.
      repeat split; [exists [(px, py)]; split; [reflexivity | cbn; lia] | lia].
    + rewrite length_app. cbn [List.length].
      repeat split; [lia | exists [a]; split; [reflexivity | cbn; lia]|].
      intros _. apply last_last.
  - rewrite length_app. cbn [List.length].
    repeat split; [lia | exists []; split; [reflexivity | cbn; lia]|].
    intros _. apply last_last.
Qed.

Lemma add_position_is_a_bounded_queue_witness :
  let tr1 := Trail.add_position (Trail.Make [(1, 2); (3, 4)] 2) 5 6 in
  Trail.max_length tr1 = 2%nat /\
  List.length (Trail.positions tr1) = 2%nat /\
  (exists dropped,
     (dropped ++ Trail.positions tr1 = [(1, 2); (3, 4)] ++ [(5, 6)])%list
     /\ (List.length dropped <= 1)%nat) /\
  ((1 <= 2)%nat -> last (Trail.positions tr1) (0, 0) = (5, 6)).
Proof.
  apply (add_position_is_a_bounded_queue (Trail.Make [(1, 2); (3, 4)] 2) 5 6).
  unfold trail_bounded. cbn. lia.
Defined.

(** ** Paddle *)

Lemma draw_glow_step (p : Paddle.t) :
  (0 <= Paddle.glow_intensity p)%Z ->
  Paddle.glow_intensity (Paddle.draw p)
  = Z.max 0 (Paddle.glow_intensity p - 5).
Proof.
  intros H. unfold Paddle.draw.
  destruct (Z.ltb_spec 0 (Paddle.glow_intensity p)); cbn; lia.
Qed.

Lemma iter_draw_glow (n : nat) (p : Paddle.t) :
  (0 <= Paddle.glow_intensity p)%Z ->
  Paddle.glow_intensity (Nat.iter n Paddle.draw p)
  = Z.max 0 (Paddle.glow_intensity p - 5 * Z.of_nat n) /\
  same_but_glow (Nat.iter n Paddle.draw p) p.
Proof.
  intros H. induction n as [|n [IHg IHs]].
  - cbn [Nat.iter nat_rect]. split; [lia | apply same_but_glow_refl].
  - change (Nat.iter (S n) Paddle.draw p)
      with (Paddle.draw (Nat.iter n Paddle.draw p)).
    split.
    + rewrite draw_glow_step by (rewrite IHg; lia). rewrite IHg. lia.
    + eapply same_but_glow_trans; [apply same_but_glow_draw | exact IHs].
Qed.

(** X2.  After [activate_glow], n frames of [draw] leave the glow at
    [max(0, 100 - 5 n)]: it is gone after 20 frames and never negative;
    nothing else of the paddle changes. *)
Theorem glow_fades_in_twenty_frames (p : Paddle.t) (n : nat) :
  Paddle.glow_intensity (Nat.iter n Paddle.draw (Paddle.activate_glow p))
  = Z.max 0 (100 - 5 * Z.of_nat n) /\
  ((20 <= n)%nat ->
   Paddle.glow_intensity (Nat.iter n Paddle.draw (Paddle.activate_glow p))
   = 0%Z) /\
  same_but_glow (Nat.iter n Paddle.draw (Paddle.activate_glow p)) p.
Proof.
  destruct (iter_draw_glow n (Paddle.activate_glow p)) as [Hg Hs];
    [cbn; lia|].
  cbn [Paddle.activate_glow Paddle.set_glow Paddle.glow_intensity] in Hg.
  split; [exact Hg|]. split; [intros Hn; rewrite Hg; lia|].
  eapply same_but_glow_trans; [exact Hs | apply same_but_glow_set].
Qed.

Lemma glow_fades_in_twenty_frames_witness :
  Paddle.glow_intensity
    (Nat.iter 25 Paddle.draw (Paddle.activate_glow (Paddle.init 30 260 15 80)))
  = 0%Z.
Proof.
  apply (proj1 (proj2 (glow_fades_in_twenty_frames
                         (Paddle.init 30 260 15 80) 25))).
  lia.
Defined.

(** A clamped step from a position in bounds goes no further than the step
    and never backwards. *)
Lemma clamp_step (p : Paddle.t) (m : R) :
  in_bounds p ->
  (0 <= m -> Paddle.y p <= Paddle.clamp p (Paddle.y p + m) <= Paddle.y p + m)
  /\
  (m <= 0 -> Paddle.y p + m <= Paddle.clamp p (Paddle.y p + m) <= Paddle.y p).
Proof.
  intros [Hlo Hhi]. unfold Paddle.clamp, Rmax, Rmin.
  split; intros Hm; repeat destruct (Rle_dec _ _); lra.
Qed.

(** X3.  [move(-1)] followed by [move(1)], as the frame does when both keys
    of a side are held: the paddle returns to where it was, except next to
    the top band, where the first move is cut short and the pair leaves it
    one full step below the band.  Symmetrically for [move(1)] followed by
    [move(-1)] next to the bottom band. *)
Theorem opposite_moves_cancel_away_from_the_bands (p : Paddle.t) :
  in_bounds p -> (0 <= Paddle.speed p)%Z ->
  20 + IZR (Paddle.speed p) <= IZR (HEIGHT - 20 - Paddle.height p) ->
  Paddle.y (Paddle.move (Paddle.move p (-1)) 1)
  = Rmax (20 + IZR (Paddle.speed p)) (Paddle.y p) /\
  Paddle.y (Paddle.move (Paddle.move p 1) (-1))
  = Rmin (IZR (HEIGHT - 20 - Paddle.height p) - IZR (Paddle.speed p))
         (Paddle.y p) /\
  (20 + IZR (Paddle.speed p) <= Paddle.y p ->
   Paddle.move (Paddle.move p (-1)) 1 = p).
Proof.
  intros [Hlo Hhi] Hs Hroom. apply IZR_le in Hs.
  destruct p as [px py pw ph ps pg pt].
  unfold Paddle.move, Paddle.set_y, Paddle.clamp, in_bounds in *.
  cbn [Paddle.x Paddle.y Paddle.width Paddle.height Paddle.speed
       Paddle.glow_intensity Paddle.target_y] in *.
  set (B := IZR (HEIGHT - 20 - ph)) in *. set (s := IZR ps) in *.
  repeat split.
  - unfold Rmax, Rmin; repeat destruct (Rle_dec _ _); lra.
  - unfold Rmax, Rmin; repeat destruct (Rle_dec _ _); lra.
  - intros Hy. f_equal.
    unfold Rmax, Rmin; repeat destruct (Rle_dec _ _); lra.
Qed.

Lemma opposite_moves_cancel_away_from_the_bands_witness :
  Paddle.y (Paddle.move (Paddle.move (Paddle.init 30 20 15 80) (-1)) 1)
  = Rmax (20 + 6) 20.
Proof.
  refine (proj1 (opposite_moves_cancel_away_from_the_bands
                   (Paddle.init 30 20 15 80) _ _ _)).
  - unfold in_bounds, HEIGHT. cbn. lra.
  - cbn. lia.
  - unfold HEIGHT. cbn. lra.
Defined.

(** X4.  [ai_move] on a paddle in bounds eases towards the noisy target:
    the paddle moves by at most its speed and by at most a tenth of the
    distance between its centre and the target, never away from the target
    and never past it; on target it rests.  The target itself is within
    [height * difficulty] of the ball. *)
Theorem ai_move_eases_towards_the_target
    (p : Paddle.t) (ball_y difficulty r : R) :
  in_bounds p -> (0 <= Paddle.speed p)%Z ->
  let target := ball_y + uniform (- IZR (Paddle.height p) * difficulty)
                                 (IZR (Paddle.height p) * difficulty) r in
  let centre := Paddle.y p + IZR (Paddle.height p / 2) in
  let y1 := Paddle.y (Paddle.ai_move p ball_y difficulty r) in
  Rabs (y1 - Paddle.y p) <= IZR (Paddle.speed p) /\
  Rabs (y1 - Paddle.y p) <= Rabs (target - centre) / 10 /\
  (centre <= target -> Paddle.y p <= y1) /\
  (target <= centre -> y1 <= Paddle.y p) /\
  (unit_draw r -> 0 <= IZR (Paddle.height p) * difficulty ->
   Rabs (target - ball_y) <= IZR (Paddle.height p) * difficulty).
Proof.
  intros Hp Hs target centre y1. apply IZR_le in Hs.
  assert (Hnoise : unit_draw r -> 0 <= IZR (Paddle.height p) * difficulty ->
                   Rabs (target - ball_y) <= IZR (Paddle.height p) * difficulty).
  { intros [H0 H1] Hd. subst target. unfold uniform.
    set (e := IZR (Paddle.height p) * difficulty) in *.
    replace (- IZR (Paddle.height p) * difficulty) with (- e)
      by (unfold e; ring).
    apply Rabs_le. split; nra. }
  subst y1. unfold Paddle.ai_move. fold target. fold centre.
  cbn [Paddle.set_y Paddle.y].
  set (m0 := (target - centre) * (1 / 10)).
  set (m := if Rltb (IZR (Paddle.speed p)) (Rabs m0)
            then (if Rltb 0 m0 then IZR (Paddle.speed p)
                  else - IZR (Paddle.speed p))
            else m0).
  assert (Hm : (0 <= m0 -> 0 <= m <= m0 /\ m <= IZR (Paddle.speed p)) /\
               (m0 <= 0 -> m0 <= m <= 0 /\ - IZR (Paddle.speed p) <= m)).
  { subst m. destruct (Rltb_spec (IZR (Paddle.speed p)) (Rabs m0)) as [Hc | Hc].
    - destruct (Rltb_spec 0 m0) as [Hpos | Hneg].
      + rewrite Rabs_pos_eq in Hc by lra. split; intros; lra.
      + assert (Hle : m0 <= 0) by lra.
        rewrite <- Rabs_Ropp, Rabs_pos_eq in Hc by lra. split; intros; lra.
    - split; intros H0.
      + rewrite Rabs_pos_eq in Hc by lra. lra.
      + rewrite <- Rabs_Ropp, Rabs_pos_eq in Hc by lra. lra. }
  destruct (clamp_step p m Hp) as [Hup Hdown].
  destruct Hm as [Hm1 Hm2].
  assert (Hd : Rabs (target - centre) / 10 = Rabs m0).
  { subst m0. rewrite Rabs_mult, (Rabs_pos_eq (1 / 10)) by lra. lra. }
  rewrite Hd.
  destruct (Rle_lt_dec 0 m0) as [Hpos | Hneg].
  - destruct (Hm1 Hpos) as [[Hm0 Hmm] Hms]. specialize (Hup Hm0).
    rewrite (Rabs_pos_eq m0) by lra.
    repeat split; try (apply Rabs_le; lra); try (intros; lra);
      try exact Hnoise.
    intros Ht. assert (m0 = 0) by (subst m0; lra).
    assert (m = 0) by lra. lra.
  - assert (Hle : m0 <= 0) by lra.
    destruct (Hm2 Hle) as [[Hmm Hm0] Hms]. specialize (Hdown Hm0).
    rewrite <- (Rabs_Ropp m0), (Rabs_pos_eq (- m0)) by lra.
    repeat split; try (apply Rabs_le; lra); try (intros; lra);
      try exact Hnoise.
    intros Ht. subst m0. lra.
Qed.

Lemma ai_move_eases_towards_the_target_witness :
  let p := Paddle.init 955 260 15 80 in
  let y1 := Paddle.y (Paddle.ai_move p 500 (2 / 10) (1 / 2)) in
  Rabs (y1 - Paddle.y p) <= IZR (Paddle.speed p).
Proof.
  refine (proj1 (ai_move_eases_towards_the_target
                   (Paddle.init 955 260 15 80) 500 (2 / 10) (1 / 2) _ _)).
  - unfold in_bounds, HEIGHT. cbn. lra.
  - cbn. lia.
Defined.

(** ** Ball *)

(** What one call of [update] does, by the side the ball leaves through. *)
Lemma update_spec (b : Ball.t) (gl : globals) (r : R) (flip : bool) :
  let '(b1, g1, log) := Ball.update b gl r flip in
  has_burst RED log = exits_left b /\
  has_burst BLUE log = exits_right b /\
  Ball.radius b1 = Ball.radius b /\
  Ball.trail b1
  = Trail.add_position (Ball.trail b)
      (Ball.x b + Ball.vx b) (Ball.y b + Ball.vy b) /\
  (exits_left b = false -> exits_right b = false ->
   g1 = gl /\
   Ball.x b1 = Ball.x b + Ball.vx b /\ Ball.y b1 = Ball.y b + Ball.vy b /\
   Ball.speed b1 = Ball.speed b /\ Ball.vx b1 = Ball.vx b /\
   Ball.vy b1 = if touches_band b then - Ball.vy b else Ball.vy b) /\
  (exits_left b || exits_right b = true ->
   b1 = Ball.reset_ball b1 r flip).
Proof.
  unfold Ball.update, touches_band, exits_right, exits_left, Ball.at_wall.
  cbn [Ball.x Ball.y Ball.vx Ball.vy Ball.radius].
  destruct (Rleb _ 20 || Rleb _ _);
    cbn [Ball.x Ball.y Ball.vx Ball.vy Ball.radius];
    destruct (Rltb _ 0); cbn [negb andb orb];
    try destruct (Rltb _ _);
    rewrite ?has_burst_app; cbn;
    repeat split; try discriminate; try reflexivity.
Qed.

(** X5.  The call of [update] that follows a reset never scores: the ball
    starts at x = 500 and moves at most 6 sideways, so the globals are
    untouched and no score burst is issued, whatever the draws were. *)
Theorem no_score_in_the_frame_after_a_reset
    (b : Ball.t) (gl : globals) (r r1 : R) (flip flip1 : bool) :
  let '(b1, g1, log) := Ball.update (Ball.reset_ball b r flip) gl r1 flip1 in
  g1 = gl /\ has_burst RED log = false /\ has_burst BLUE log = false /\
  Ball.speed b1 = 6 /\
  Ball.x b1 = 500 + Ball.vx (Ball.reset_ball b r flip) /\
  494 <= Ball.x b1 <= 506.
Proof.
  pose proof (update_spec (Ball.reset_ball b r flip) gl r1 flip1) as H.
  set (b0 := Ball.reset_ball b r flip) in *.
  assert (Hx : Ball.x b0 = 500).
  { unfold b0, Ball.reset_ball, WIDTH. cbn [Ball.x].
    change (1000 / 2)%Z with 500%Z. reflexivity. }
  assert (Hs : Ball.speed b0 = 6) by reflexivity.
  assert (Hv : -6 <= Ball.vx b0 <= 6).
  { unfold b0, Ball.reset_ball. cbn [Ball.vx].
    match goal with |- _ <= 6 * cos ?a <= _ =>
      pose proof (COS_bound a) end. lra. }
  assert (El : exits_left b0 = false).
  { unfold exits_left. apply Rltb_false. lra. }
  assert (Er : exits_right b0 = false).
  { unfold exits_right. rewrite El. cbn [negb andb].
    apply Rltb_false. unfold WIDTH. lra. }
  destruct (Ball.update b0 gl r1 flip1) as [[b1 g1] log].
  destruct H as (Hred & Hblue & _ & _ & Hstay & _).
  rewrite El in Hred. rewrite Er in Hblue.
  destruct (Hstay El Er) as (Hg & Hx1 & _ & Hs1 & _).
  rewrite Hx1, Hs1, Hx, Hs.
  repeat split; try assumption; lra.
Qed.

(** X6.  A hit sends the ball away from the paddle: after a reported
    collision of a moving ball ([vx] not zero, speed not negative) the ball
    flies right when the paddle stands in the left half of the playfield
    and left otherwise, whatever its direction was before. *)
Theorem hit_sends_the_ball_away (b : Ball.t) (p : Paddle.t)
    (b1 : Ball.t) (p1 : Paddle.t) (log : list burst) :
  Ball.vx b <> 0 -> 0 <= Ball.speed b ->
  Ball.check_paddle_collision b p = Some (true, b1, p1, log) ->
  (Paddle.x p < IZR (WIDTH / 2) -> 0 < Ball.vx b1) /\
  (IZR (WIDTH / 2) <= Paddle.x p -> Ball.vx b1 < 0).
Proof.
  intros Hv Hs H.
  apply bounce_inv in H
    as [(Hf & _) | (_ & _ & a & _ & _ & -> & _)]; [discriminate|].
  pose proof (speed_magnitude_pos b p a Hv) as Hm.
  pose proof (Rabs_pos_lt _ Hv) as Hpos.
  assert (Hs1 : 0 < Rmin 12 (Ball.speed b + 2 / 10))
    by (apply Rmin_glb_lt; lra).
  assert (Hi : 0 < / speed_magnitude b p a) by (apply Rinv_0_lt_compat, Hm).
  pose proof (Rmult_lt_0_compat _ _ (Rmult_lt_0_compat _ _ Hpos Hi) Hs1)
    as Hprod.
  unfold rebound. cbn [Ball.vx]. fold (speed_magnitude b p a).
  unfold Rdiv. split; intros Hside.
  - rewrite (Rltb_true _ _ Hside). exact Hprod.
  - rewrite (Rltb_false _ _ Hside). lra.
Qed.

Lemma hit_sends_the_ball_away_witness :
  exists b1 log,
    Ball.check_paddle_collision centre_ball centre_paddle
    = Some (true, b1, Paddle.activate_glow centre_paddle, log) /\
    0 < Ball.vx b1.
Proof.
  destruct centre_ball_bounces as (b1 & log & H).
  exists b1, log. split; [exact H|].
  refine (proj1 (hit_sends_the_ball_away centre_ball centre_paddle
                   b1 _ log _ _ H) _).
  - exact (proj1 (reachable_inv _ centre_ball_reachable)).
  - cbn. lra.
  - unfold WIDTH. cbn. change (1000 / 2)%Z with 500%Z. lra.
Defined.

(** X7.  A hit does not move the ball: position, radius and trail are as
    before, only the paddle's glow is set to 100, so the ball still
    overlaps the paddle when the call returns and an immediate second check
    against the same paddle reports a hit again. *)
Theorem hit_leaves_the_ball_in_place (b : Ball.t) (p : Paddle.t)
    (b1 : Ball.t) (p1 : Paddle.t) (log : list burst) :
  Ball.check_paddle_collision b p = Some (true, b1, p1, log) ->
  Ball.x b1 = Ball.x b /\ Ball.y b1 = Ball.y b /\
  Ball.radius b1 = Ball.radius b /\ Ball.trail b1 = Ball.trail b /\
  Paddle.glow_intensity p1 = 100%Z /\ same_but_glow p1 p /\
  Ball.overlaps b1 p1 = true /\
  (Ball.vx b1 <> 0 ->
   exists b2 p2 log2,
     Ball.check_paddle_collision b1 p1 = Some (true, b2, p2, log2)).
Proof.
  intros H.
  apply bounce_inv in H
    as [(Hf & _) | (_ & Ho & a & Ha & Hm & -> & -> & _)]; [discriminate|].
  assert (Ho1 : Ball.overlaps (rebound b p a) (Paddle.activate_glow p) = true)
    by exact Ho.
  repeat split; try reflexivity; try exact Ho1.
  intros Hv.
  destruct (bounce_angle_some b p a Ha) as [Hh _].
  destruct (bounce_angle_total (rebound b p a) (Paddle.activate_glow p) Hh)
    as [a1 Ha1].
  pose proof (speed_magnitude_pos (rebound b p a) (Paddle.activate_glow p)
                a1 Hv) as Hm1.
  do 3 eexists. apply (bounce_hit _ _ a1 Ho1 Ha1). lra.
Qed.

Lemma hit_leaves_the_ball_in_place_witness :
  exists b1 log,
    Ball.check_paddle_collision centre_ball centre_paddle
    = Some (true, b1, Paddle.activate_glow centre_paddle, log) /\
    Ball.overlaps b1 (Paddle.activate_glow centre_paddle) = true.
Proof.
  destruct centre_ball_bounces as (b1 & log & H).
  exists b1, log. split; [exact H|].
  exact (proj1 (proj2 (proj2 (proj2 (proj2 (proj2 (proj2
           (hit_leaves_the_ball_in_place centre_ball centre_paddle
              b1 _ log H)))))))).
Defined.



(** ** Particles *)

Lemma iter_particle_update (n : nat) (p : Particle.t) :
  Particle.life (Nat.iter n Particle.update p)
  = Particle.life p - INR n * Particle.decay p /\
  Particle.decay (Nat.iter n Particle.update p) = Particle.decay p /\
  Particle.size (Nat.iter n Particle.update p)
  = Particle.size p * (98 / 100) ^ n.
Proof.
  induction n as [|n (IHl & IHd & IHs)].
  - cbn. repeat split; ring.
  - change (Nat.iter (S n) Particle.update p)
      with (Particle.update (Nat.iter n Particle.update p)).
    set (q := Nat.iter n Particle.update p) in *.
    unfold Particle.update.
    cbn [Particle.life Particle.decay Particle.size].
    rewrite IHl, IHd, IHs, S_INR. cbn [pow]. repeat split; ring.
Qed.

Lemma fresh_particle_decay (px py : R) (c : color) (r1 r2 r3 r4 : R) :
  unit_draw r3 ->
  3 <= Particle.decay (Particle.init px py c r1 r2 r3 r4) <= 6.
Proof.
  intros [H0 H1]. unfold Particle.init, uniform. cbn [Particle.decay]. lra.
Qed.

(** X9.  A particle lives between 43 and 85 frames: created with life 255
    and a decay drawn between 3 and 6, it is alive after each of its first
    42 updates and dead after 85 or more; its size shrinks by 2 percent per
    update and stays positive. *)
Theorem particle_lifetime (px py : R) (c : color) (r1 r2 r3 r4 : R) (n : nat) :
  unit_draw r3 -> unit_draw r4 ->
  let p := Nat.iter n Particle.update (Particle.init px py c r1 r2 r3 r4) in
  ((n <= 42)%nat -> Particle.is_alive p = true) /\
  ((85 <= n)%nat -> Particle.is_alive p = false) /\
  0 < Particle.size p <= 5.
Proof.
  intros Hr3 Hr4. cbv zeta.
  destruct (iter_particle_update n (Particle.init px py c r1 r2 r3 r4))
    as (Hl & _ & Hs).
  pose proof (fresh_particle_decay px py c r1 r2 r3 r4 Hr3) as Hd.
  unfold Particle.is_alive. rewrite Hl, Hs.
  change (Particle.life (Particle.init px py c r1 r2 r3 r4)) with 255.
  set (d := Particle.decay (Particle.init px py c r1 r2 r3 r4)) in *.
  split; [|split].
  - intros Hn. apply Rltb_true. apply le_INR in Hn.
    rewrite (INR_IZR_INZ 42) in Hn. cbn in Hn.
    pose proof (pos_INR n). nra.
  - intros Hn. apply Rltb_false. apply le_INR in Hn.
    rewrite (INR_IZR_INZ 85) in Hn. cbn in Hn. nra.
  - unfold Particle.init, uniform. cbn [Particle.size].
    destruct Hr4 as [H0 H1].
    assert (Hp : 0 < (98 / 100) ^ n) by (apply pow_lt; lra).
    assert (Hq : (98 / 100) ^ n <= 1).
    { rewrite <- (pow1 n). apply pow_incr. lra. }
    split; nra.
Qed.

Lemma particle_lifetime_witness :
  let p := Nat.iter 3 Particle.update
             (Particle.init 10 20 ORANGE (1 / 2) (1 / 2) (1 / 2) (1 / 2)) in
  ((3 <= 42)%nat -> Particle.is_alive p = true) /\
  ((85 <= 3)%nat -> Particle.is_alive p = false) /\
  0 < Particle.size p <= 5.
Proof.
  apply (particle_lifetime 10 20 ORANGE (1 / 2) (1 / 2) (1 / 2) (1 / 2) 3);
    unfold unit_draw; lra.
Defined.

Lemma update_particles_fading (l : R) (ps : list Particle.t) :
  Forall (fading l) ps -> Forall (fading (l - 3)) (update_particles ps).
Proof.
  intros H. unfold update_particles. rewrite Forall_forall in *.
  intros q Hq. apply in_map_iff in Hq as (p & <- & Hp).
  apply filter_In in Hp as [Hp _]. destruct (H p Hp) as [Hl Hd].
  unfold fading, Particle.update. cbn [Particle.life Particle.decay]. lra.
Qed.

Lemma iter_update_particles_fading (n : nat) (l : R) (ps : list Particle.t) :
  Forall (fading l) ps ->
  Forall (fading (l - 3 * INR n)) (Nat.iter n update_particles ps).
Proof.
  intros H. induction n as [|n IH].
  - cbn. replace (l - 3 * 0) with l by ring. exact H.
  - change (Nat.iter (S n) update_particles ps)
      with (update_particles (Nat.iter n update_particles ps)).
    rewrite S_INR.
    replace (l - 3 * (INR n + 1)) with (l - 3 * INR n - 3) by ring.
    apply update_particles_fading, IH.
Qed.

Lemma update_particles_all_dead (ps : list Particle.t) :
  Forall (fading 0) ps -> update_particles ps = [].
Proof.
  intros H. unfold update_particles.
  induction H as [|p ps [Hl _] _ IH]; [reflexivity|].
  cbn [filter]. unfold Particle.is_alive at 1.
  rewrite (Rltb_false _ _ Hl). exact IH.
Qed.

Lemma spawn_particles_fading (ps : list Particle.t) (b : Ball.t) (c : color)
    (count : nat) (ds : nat -> particle_draws) :
  (forall i, fair_particle_draws (ds i)) ->
  Forall (fading 255) ps ->
  Forall (fading 255) (spawn_particles ps b c count ds).
Proof.
  intros Hds Hps. unfold spawn_particles. apply Forall_app. split; [exact Hps|].
  rewrite Forall_forall. intros q Hq.
  apply in_map_iff in Hq as (i & <- & _).
  specialize (Hds i). destruct (ds i) as [[[r1 r2] r3] r4].
  destruct Hds as (_ & _ & H3 & _).
  split; [cbn; lra | apply fresh_particle_decay, H3].
Qed.

(** X10.  Particles do not pile up: [update] never adds a particle, and 86
    calls after a burst every particle of it (and every older one) has been
    dropped from the ball's list. *)
Theorem particles_are_gone_after_86_updates
    (ps : list Particle.t) (b : Ball.t) (c : color)
    (count : nat) (ds : nat -> particle_draws) :
  (forall i, fair_particle_draws (ds i)) ->
  Forall (fading 255) ps ->
  (List.length (update_particles (spawn_particles ps b c count ds))
   <= List.length ps + count)%nat /\
  Nat.iter 86 update_particles (spawn_particles ps b c count ds) = [].
Proof.
  intros Hds Hps. split.
  - unfold update_particles, spawn_particles.
    rewrite length_map.
    etransitivity; [apply filter_length_le|].
    rewrite length_app, length_map, length_seq. lia.
  - change (Nat.iter 86 update_particles (spawn_particles ps b c count ds))
      with (update_particles
              (Nat.iter 85 update_particles (spawn_particles ps b c count ds))).
    apply update_particles_all_dead.
    pose proof (iter_update_particles_fading 85 255 _
                  (spawn_particles_fading ps b c count ds Hds Hps)) as H.
    rewrite (INR_IZR_INZ 85) in H. cbn in H.
    replace (255 - 3 * 85) with 0 in H by lra. exact H.
Qed.

Lemma particles_are_gone_after_86_updates_witness :
  Nat.iter 86 update_particles
    (spawn_particles [] corner_ball RED 20
       (fun _ => (1 / 2, 1 / 2, 1 / 2, 1 / 2))) = [].
Proof.
  refine (proj2 (particles_are_gone_after_86_updates [] corner_ball RED 20
                   (fun _ => (1 / 2, 1 / 2, 1 / 2, 1 / 2)) _ _)).
  - intros _. unfold fair_particle_draws, unit_draw. lra.
  - constructor.
Defined.

(** ** Drawing the trail *)

Lemma combine_snoc {A B : Type} (l : list A) (l' : list B) (a : A) (b : B) :
  List.length l = List.length l' ->
  combine (l ++ [a]) (l' ++ [b]) = (combine l l' ++ [(a, b)])%list.
Proof.
  revert l'. induction l as [|x l IH]; intros [|y l'] H;
    try discriminate; cbn in *.
  - reflexivity.
  - f_equal. apply IH. lia.
Qed.

Lemma flat_map_at_most_one {A B : Type} (f : A -> list B) (l : list A) :
  (forall a, (List.length (f a) <= 1)%nat) ->
  (List.length (flat_map f l) <= List.length l)%nat.
Proof.
  intros Hf. induction l as [|a l IH]; cbn [flat_map List.length].
  - lia.
  - rewrite length_app. specialize (Hf a). lia.
Qed.

Lemma trail_size_alpha_range (i n : nat) :
  (i < n)%nat ->
  (0 <= trail_size i n <= 5)%Z /\ (0 <= trail_alpha i n <= 255)%Z.
Proof.
  intros H. unfold trail_size, trail_alpha. split; split.
  - apply Z.div_pos; lia.
  - apply Z.div_le_upper_bound; lia.
  - apply Z.div_pos; lia.
  - apply Z.div_le_upper_bound; lia.
Qed.

(** X11.  [Trail.draw] only blits valid circles: every radius is between 1
    and 5 and every alpha between 0 and 255 (a legal colour channel), there
    is at most one circle per position, and the newest position of a
    non-empty trail is drawn last, at full size 5 and alpha 255.  The
    division by the number of positions is never a division by zero: the
    loop body does not run on an empty trail. *)
Theorem trail_draw_blits_valid_circles (tr : Trail.t) :
  Forall (fun c => (1 <= circle_size c <= 5)%Z /\
                   (0 <= circle_alpha c <= 255)%Z) (trail_draw tr) /\
  (List.length (trail_draw tr) <= List.length (Trail.positions tr))%nat /\
  (Trail.positions tr = [] -> trail_draw tr = []) /\
  (forall ps px py, Trail.positions tr = (ps ++ [(px, py)])%list ->
     exists front,
       trail_draw tr = (front ++ [TrailCircle px py 5 255])%list).
Proof.
  unfold trail_draw. set (n := List.length (Trail.positions tr)).
  split; [|split; [|split]].
  - rewrite Forall_forall. intros c Hc.
    apply in_flat_map in Hc as ([i [px py]] & Hin & Hc).
    apply in_combine_l in Hin. apply in_seq in Hin.
    destruct (trail_size_alpha_range i n) as [Hs Ha]; [lia|].
    destruct (Z.ltb_spec 0 (trail_size i n)) as [Hpos | Hzero];
      [|destruct Hc].
    destruct Hc as [<- | []]. cbn. split; [lia | exact Ha].
  - etransitivity; [apply flat_map_at_most_one|].
    + intros [i [px py]]. destruct (0 <? trail_size i n)%Z; cbn; lia.
    + rewrite length_combine, length_seq. unfold n. lia.
  - intros E. unfold n. rewrite E. reflexivity.
  - intros ps px py E.
    assert (Hn : n = S (List.length ps)).
    { unfold n. rewrite E, length_app. cbn. lia. }
    rewrite Hn, seq_S, E, combine_snoc by (rewrite length_seq; reflexivity).
    rewrite flat_map_app. cbn [flat_map app plus].
    assert (Hs : trail_size (List.length ps) (S (List.length ps)) = 5%Z).
    { unfold trail_size.
      replace (Z.of_nat (List.length ps) + 1)%Z
        with (Z.of_nat (S (List.length ps))) by lia.
      apply Z.div_mul. lia. }
    assert (Ha : trail_alpha (List.length ps) (S (List.length ps)) = 255%Z).
    { unfold trail_alpha.
      replace (Z.of_nat (List.length ps) + 1)%Z
        with (Z.of_nat (S (List.length ps))) by lia.
      apply Z.div_mul. lia. }
    rewrite Hs, Ha. cbn [Z.ltb Z.compare]. eexists. reflexivity.
Qed.

Lemma trail_draw_blits_valid_circles_witness :
  exists front,
    trail_draw (Trail.Make [(1, 2); (3, 4); (5, 6)] 15)
    = (front ++ [TrailCircle 5 6 5 255])%list.
Proof.
  apply (proj2 (proj2 (proj2 (trail_draw_blits_valid_circles
                  (Trail.Make [(1, 2); (3, 4); (5, 6)] 15))))
           [(1, 2); (3, 4)] 5 6).
  reflexivity.
Defined.

(** ** The frame loop: what every run keeps true *)

Lemma frame_inv (w : world) (i : frame_input) (w1 : world) (log : list burst) :
  frame w i = Some (w1, log) ->
  exists w0, game_logic (handle_events w (events i)) (rnd i) = Some (w0, log)
             /\ w1 = drawing w0.
Proof.
  unfold frame. destruct (game_logic _ _) as [[w0 log0]|]; [|discriminate].
  cbn [bind]. intros H. injection H as <- <-. exists w0. auto.
Qed.

Lemma main_loop_invariant (P : world -> Prop) :
  (forall w i w1 log, P w -> frame w i = Some (w1, log) -> P w1) ->
  forall fs w w1, P w -> main_loop w fs = Some w1 -> P w1.
Proof.
  intros Hstep. induction fs as [|i fs IH]; intros w w1 Hw; cbn [main_loop].
  - intros H. injection H as <-. exact Hw.
  - destruct (running w); [|intros H; injection H as <-; exact Hw].
    destruct (frame w i) as [[w0 log]|] eqn:E; [|discriminate].
    cbn [bind fst]. apply IH. exact (Hstep _ _ _ _ Hw E).
Qed.

Lemma handle_event_globals (w : world) (e : event) :
  scores_consistent (g w) /\ valid_mode (g w) ->
  scores_consistent (g (handle_event w e)) /\ valid_mode (g (handle_event w e)).
Proof.
  destruct w as [[sl sr ms gs wn gm] lp rp b lu ld ru rd run].
  unfold scores_consistent, valid_mode.
  cbn [g score_left score_right max_score game_state winner game_mode].
  intros [(Hm & Hl & Hr & Hcase) Hmode].
  destruct Hcase as [[[-> | [-> | ->]] [Hl1 Hr1]] | [-> Hw]];
    destruct Hmode as [-> | [-> | ->]];
    destruct e as [|k|k|]; try destruct k; cbn;
    intuition (try lia; try congruence).
Qed.

Lemma handle_events_globals (es : list event) (w : world) :
  scores_consistent (g w) /\ valid_mode (g w) ->
  scores_consistent (g (handle_events w es))
  /\ valid_mode (g (handle_events w es)).
Proof.
  revert w. induction es as [|e es IH]; intros w H; cbn.
  - exact H.
  - apply IH, handle_event_globals, H.
Qed.

(** The globals [update] returns. *)
Lemma update_scores (b : Ball.t) (gl : globals) (r : R) (flip : bool) :
  snd (fst (Ball.update b gl r flip))
  = if exits_left b then set_score_right gl (score_right gl + 1)
    else if exits_right b then set_score_left gl (score_left gl + 1)
    else gl.
Proof.
  unfold Ball.update, exits_right, exits_left.
  destruct (Ball.at_wall _); cbn [Ball.x];
    destruct (Rltb _ 0); cbn [negb andb];
    try destruct (Rltb _ _); reflexivity.
Qed.

(** The globals after the game logic of a playing frame. *)
Lemma play_globals (w : world) (d : draws) (w1 : world) (log : list burst) :
  play w d = Some (w1, log) ->
  g w1 = check_win (snd (fst (Ball.update (ball w) (g w)
                                          (angle_draw d) (flip_draw d)))).
Proof.
  intros H. apply play_inv in H as (w0 & E & ->).
  destruct (move_paddles_frame w d) as (Eg & Eb & _).
  apply ball_step_inv in E
    as (b0 & gl & log0 & h1 & b1 & p1 & log1 & h2 & b2 & p2 & log2
        & E0 & _ & _ & -> & _).
  world_simpl. rewrite <- Eg, <- Eb, E0. reflexivity.
Qed.

Lemma game_logic_inv (w : world) (d : draws) (w1 : world) (log : list burst) :
  game_logic w d = Some (w1, log) ->
  (game_state (g w) = "playing"%string /\ play w d = Some (w1, log))
  \/ (game_state (g w) <> "playing"%string /\ w1 = w /\ log = []).
Proof.
  unfold game_logic, state_is.
  destruct (String.eqb_spec (game_state (g w)) "playing") as [E | N].
  - intros H. left. auto.
  - intros H. injection H as <- <-. right. auto.
Qed.

Lemma game_logic_globals (w : world) (d : draws)
    (w1 : world) (log : list burst) :
  scores_consistent (g w) /\ valid_mode (g w) ->
  game_logic w d = Some (w1, log) ->
  scores_consistent (g w1) /\ valid_mode (g w1).
Proof.
  intros Hinv H.
  apply game_logic_inv in H as [[Hs H] | (_ & -> & _)]; [|exact Hinv].
  rewrite (play_globals _ _ _ _ H), update_scores.
  destruct (g w) as [sl sr ms gs wn gm].
  unfold scores_consistent, valid_mode in *.
  cbn [score_left score_right max_score game_state winner game_mode] in *.
  subst gs. destruct Hinv as [(-> & Hl & Hr & Hcase) Hmode].
  assert (Hlt : (sl < 10)%Z /\ (sr < 10)%Z).
  { destruct Hcase as [[_ H1] | [H1 _]]; [exact H1 | discriminate]. }
  destruct Hlt as [Hl1 Hr1]. unfold check_win.
  destruct (exits_left (ball w)); [|destruct (exits_right (ball w))];
    cbn [set_score_left set_score_right score_left score_right max_score
         game_state winner game_mode].
  - destruct (Z.leb_spec 10 sl); [lia|].
    destruct (Z.leb_spec 10 (sr + 1)); cbn;
      (split; [|exact Hmode]); repeat split; try lia.
    + right. split; [reflexivity|]. right. repeat split; lia.
    + left. repeat split; auto; lia.
  - destruct (Z.leb_spec 10 (sl + 1)); [|destruct (Z.leb_spec 10 sr); [lia|]];
      cbn; (split; [|exact Hmode]); repeat split; try lia.
    + right. split; [reflexivity|]. left. repeat split; lia.
    + left. repeat split; auto; lia.
  - destruct (Z.leb_spec 10 sl); [lia|].
    destruct (Z.leb_spec 10 sr); [lia|].
    cbn. split; [|exact Hmode]. repeat split; try lia.
    left. repeat split; auto.
Qed.

Lemma frame_globals (w : world) (i : frame_input)
    (w1 : world) (log : list burst) :
  scores_consistent (g w) /\ valid_mode (g w) ->
  frame w i = Some (w1, log) ->
  scores_consistent (g w1) /\ valid_mode (g w1).
Proof.
  intros Hinv H. apply frame_inv in H as (w0 & E & ->).
  destruct (drawing_frame w0) as (-> & _).
  eapply game_logic_globals; [|exact E].
  apply handle_events_globals, Hinv.
Qed.

Lemma initial_globals_consistent :
  scores_consistent initial_globals /\ valid_mode initial_globals.
Proof.
  unfold scores_consistent, valid_mode, initial_globals. cbn.
  repeat split; try lia; auto.
  left. repeat split; auto; lia.
Qed.

(** X12.  In every state the loop reaches from [main]'s initial objects:
    both scores are between 0 and [max_score] = 10; while the phase is
    [menu], [playing] or [paused] both are below 10; and the phase is
    [game_over] exactly with one side at 10, the other below, and the
    winner naming the side at 10 (no ties, no score beyond 10).  The mode
    is always one of the three mode strings. *)
Theorem scores_and_winner_stay_consistent
    (r : R) (flip : bool) (fs : list frame_input) (w : world) :
  main_loop (initial_world r flip) fs = Some w ->
  scores_consistent (g w) /\ valid_mode (g w).
Proof.
  apply (main_loop_invariant
           (fun w => scores_consistent (g w) /\ valid_mode (g w))).
  - exact frame_globals.
  - exact initial_globals_consistent.
Qed.

Lemma demo_run_exists :
  exists w, main_loop (initial_world (1 / 4) true) demo_frames = Some w.
Proof.
  destruct (main_loop_total demo_frames (initial_world (1 / 4) true))
    as (w & E & _).
  - apply initial_world_ok. unfold unit_draw. lra.
  - repeat constructor; unfold unit_draw; cbn; lra.
  - exists w. exact E.
Qed.

Lemma scores_and_winner_stay_consistent_witness :
  exists w,
    main_loop (initial_world (1 / 4) true) demo_frames = Some w /\
    scores_consistent (g w) /\ valid_mode (g w).
Proof.
  destruct demo_run_exists as [w E]. exists w. split; [exact E|].
  exact (scores_and_winner_stay_consistent (1 / 4) true demo_frames w E).
Defined.

(** *** The paddles *)

Lemma call_as_built (px : R) (p : Paddle.t) (c : paddle_call) :
  paddle_as_built px p -> paddle_as_built px (do_call p c).
Proof.
  intros (Hx & Hw & Hh & Hs & Hb & Hg).
  pose proof (do_call_in_bounds p c Hb) as Hb1.
  destruct c; unfold paddle_as_built; cbn in *; auto 10.
Qed.

Lemma glow_as_built (px : R) (p q : Paddle.t) :
  paddle_as_built px p -> same_but_glow q p ->
  (0 <= Paddle.glow_intensity q <= 100)%Z ->
  paddle_as_built px q.
Proof.
  intros (Hx & Hw & Hh & Hs & Hb & _) Hsame Hg.
  unfold same_but_glow in Hsame.
  destruct p as [x1 y1 w1 h1 s1 g1 t1], q as [x2 y2 w2 h2 s2 g2 t2].
  unfold paddle_as_built, in_bounds in *. cbn in *.
  injection Hsame as -> -> -> -> -> ->. auto 10.
Qed.

Lemma draw_as_built (px : R) (p : Paddle.t) :
  paddle_as_built px p -> paddle_as_built px (Paddle.draw p).
Proof.
  intros H. apply (glow_as_built px p); [exact H | apply same_but_glow_draw|].
  destruct H as (_ & _ & _ & _ & _ & Hg).
  rewrite draw_glow_step by lia. lia.
Qed.

Lemma bounce_as_built (px : R) (b : Ball.t) (p : Paddle.t) (hit : bool)
    (b1 : Ball.t) (p1 : Paddle.t) (log : list burst) :
  paddle_as_built px p ->
  Ball.check_paddle_collision b p = Some (hit, b1, p1, log) ->
  paddle_as_built px p1.
Proof.
  intros Hp H. apply bounce_inv in H
    as [(_ & _ & _ & -> & _) | (_ & _ & a & _ & _ & _ & -> & _)].
  - exact Hp.
  - apply (glow_as_built px p); [exact Hp | apply same_but_glow_set|].
    cbn. lia.
Qed.

Lemma move_paddles_as_built (w : world) (d : draws) :
  paddle_as_built 30 (left_paddle w) ->
  paddle_as_built 955 (right_paddle w) ->
  paddle_as_built 30 (left_paddle (move_paddles w d)) /\
  paddle_as_built 955 (right_paddle (move_paddles w d)).
Proof.
  destruct w as [gl lp rp b lu ld ru rd run]. world_simpl.
  intros Hl Hr. unfold move_paddles, mode_is.
  pose proof (fun p H c => call_as_built 30 p c H) as Cl.
  pose proof (fun p H c => call_as_built 955 p c H) as Cr.
  destruct lu, ld, ru, rd; world_simpl;
    destruct (game_mode gl =? "player_vs_player")%string;
    try destruct (game_mode gl =? "player_vs_ai")%string;
    world_simpl; split;
    repeat first
      [ assumption
      | apply (Cl _ ltac:(assumption) (Move _))
      | apply (Cr _ ltac:(assumption) (Move _))
      | apply (Cr _ ltac:(assumption) (AiMove _ _ _))
      | match goal with
        | |- paddle_as_built 30 (Paddle.move ?p ?d) =>
            apply (Cl p) with (c := Move d)
        | |- paddle_as_built 955 (Paddle.move ?p ?d) =>
            apply (Cr p) with (c := Move d)
        | |- paddle_as_built 955 (Paddle.ai_move ?p ?y ?f ?r) =>
            apply (Cr p) with (c := AiMove y f r)
        end ].
Qed.

(** *** The ball *)

Lemma add_position_bounded (tr : Trail.t) (px py : R) :
  trail_bounded tr ->
  Trail.max_length (Trail.add_position tr px py) = Trail.max_length tr /\
  trail_bounded (Trail.add_position tr px py).
Proof.
  unfold trail_bounded, Trail.add_position. intros Hb.
  rewrite length_app. cbn [List.length].
  destruct (Nat.ltb_spec (Trail.max_length tr)
                         (List.length (Trail.positions tr) + 1));
    cbn [Trail.positions Trail.max_length].
  - split; [reflexivity|].
    destruct (Trail.positions tr) as [|a ps]; cbn [app tl List.length] in *.
    + lia.
    + rewrite length_app. cbn [List.length]. lia.
  - split; [reflexivity|]. rewrite length_app. cbn [List.length]. lia.
Qed.

Lemma update_in_field (b : Ball.t) (gl : globals) (r : R) (flip : bool) :
  ball_in_field b -> ball_in_field (fst (fst (Ball.update b gl r flip))).
Proof.
  intros (_ & Hr & Hm & Ht).
  pose proof (update_spec b gl r flip) as H.
  destruct (Ball.update b gl r flip) as [[b1 g1] log]. cbn [fst].
  destruct H as (_ & _ & Hr1 & Ht1 & Hstay & Hreset).
  destruct (add_position_bounded (Ball.trail b)
              (Ball.x b + Ball.vx b) (Ball.y b + Ball.vy b) Ht) as [Hm2 Ht2].
  unfold ball_in_field. rewrite Hr1, Ht1, Hm2.
  split; [|auto].
  destruct (exits_left b) eqn:El; [|destruct (exits_right b) eqn:Er].
  - rewrite (Hreset eq_refl). unfold Ball.reset_ball, WIDTH. cbn [Ball.x].
    change (1000 / 2)%Z with 500%Z. lra.
  - rewrite (Hreset eq_refl). unfold Ball.reset_ball, WIDTH. cbn [Ball.x].
    change (1000 / 2)%Z with 500%Z. lra.
  - destruct (Hstay eq_refl eq_refl) as (_ & -> & _).
    unfold exits_right in Er. rewrite El in Er. cbn [negb andb] in Er.
    unfold exits_left in El.
    destruct (Rltb_spec (Ball.x b + Ball.vx b) 0); [discriminate|].
    destruct (Rltb_spec (IZR WIDTH) (Ball.x b + Ball.vx b)); [discriminate|].
    lra.
Qed.

Lemma bounce_in_field (b : Ball.t) (p : Paddle.t) (hit : bool)
    (b1 : Ball.t) (p1 : Paddle.t) (log : list burst) :
  ball_in_field b ->
  Ball.check_paddle_collision b p = Some (hit, b1, p1, log) ->
  ball_in_field b1.
Proof.
  intros Hb H. apply bounce_inv in H
    as [(_ & _ & -> & _) | (_ & _ & a & _ & _ & -> & _)]; exact Hb.
Qed.

Lemma frame_entities (w : world) (i : frame_input)
    (w1 : world) (log : list burst) :
  entities_as_built w -> frame w i = Some (w1, log) -> entities_as_built w1.
Proof.
  intros (Hl & Hr & Hb) H. apply frame_inv in H as (w0 & E & ->).
  destruct (handle_events_entities (events i) w) as (El & Er & Eb).
  rewrite <- El in Hl. rewrite <- Er in Hr. rewrite <- Eb in Hb.
  set (we := handle_events w (events i)) in *.
  assert (H0 : entities_as_built w0).
  { apply game_logic_inv in E as [[_ E] | (_ & -> & _)];
      [|exact (conj Hl (conj Hr Hb))].
    apply play_inv in E as (wb & E & ->).
    destruct (move_paddles_as_built we (rnd i) Hl Hr) as [Hl1 Hr1].
    destruct (move_paddles_frame we (rnd i)) as (_ & Eb1 & _).
    rewrite <- Eb1 in Hb.
    apply ball_step_inv in E
      as (b0 & gl & log0 & h1 & b1 & p1 & log1 & h2 & b2 & p2 & log2
          & E0 & E1 & E2 & -> & _).
    pose proof (update_in_field _ (g (move_paddles we (rnd i)))
                  (angle_draw (rnd i)) (flip_draw (rnd i)) Hb) as Hb0.
    rewrite E0 in Hb0. cbn [fst] in Hb0.
    pose proof (bounce_in_field _ _ _ _ _ _ Hb0 E1) as Hb1.
    pose proof (bounce_in_field _ _ _ _ _ _ Hb1 E2) as Hb2.
    unfold entities_as_built. world_simpl.
    split; [exact (bounce_as_built 30 _ _ _ _ _ _ Hl1 E1)|].
    split; [exact (bounce_as_built 955 _ _ _ _ _ _ Hr1 E2) | exact Hb2]. }
  destruct H0 as (Hl0 & Hr0 & Hb0).
  unfold entities_as_built, drawing.
  destruct (state_is w0 "menu");
    [|destruct (state_is w0 "playing" || state_is w0 "paused"
                || state_is w0 "game_over")];
    world_simpl; (split; [|split]);
    first [assumption | apply draw_as_built; assumption].
Qed.

Lemma initial_entities (r : R) (flip : bool) :
  entities_as_built (initial_world r flip).
Proof.
  unfold entities_as_built, initial_world, paddle_as_built, ball_in_field,
    in_bounds, trail_bounded, WIDTH, HEIGHT.
  cbn [left_paddle right_paddle ball Paddle.init Paddle.x Paddle.y
       Paddle.width Paddle.height Paddle.speed Paddle.glow_intensity
       Ball.init Ball.reset_ball Ball.x Ball.radius Ball.trail
       Trail.init Trail.positions Trail.max_length List.length].
  unfold WIDTH, HEIGHT.
  change (600 / 2 - 40)%Z with 260%Z. change (1000 - 45)%Z with 955%Z.
  change (600 - 20 - 80)%Z with 500%Z. change (1000 / 2)%Z with 500%Z.
  repeat split; try lra; try lia.
Qed.

(** X13.  In every state the loop reaches from [main]'s initial objects the
    two paddles are as built, x = 30 and x = 955, 15 wide, 80 high, speed
    6, with y between 20 and 500 and a glow between 0 and 100: the frame
    loop only ever changes a paddle's y and glow. *)
Theorem paddles_stay_as_built
    (r : R) (flip : bool) (fs : list frame_input) (w : world) :
  main_loop (initial_world r flip) fs = Some w ->
  paddle_as_built 30 (left_paddle w) /\
  paddle_as_built 955 (right_paddle w) /\
  20 <= Paddle.y (left_paddle w) <= 500 /\
  20 <= Paddle.y (right_paddle w) <= 500.
Proof.
  intros H.
  destruct (main_loop_invariant entities_as_built frame_entities fs _ w
              (initial_entities r flip) H) as (Hl & Hr & _).
  split; [exact Hl|]. split; [exact Hr|].
  destruct Hl as (_ & _ & Hh1 & _ & Hb1 & _).
  destruct Hr as (_ & _ & Hh2 & _ & Hb2 & _).
  unfold in_bounds, HEIGHT in *. rewrite Hh1 in Hb1. rewrite Hh2 in Hb2.
  change (600 - 20 - 80)%Z with 500%Z in *. auto.
Qed.

Lemma paddles_stay_as_built_witness :
  exists w,
    main_loop (initial_world (1 / 4) true) demo_frames = Some w /\
    20 <= Paddle.y (left_paddle w) <= 500 /\
    20 <= Paddle.y (right_paddle w) <= 500.
Proof.
  destruct demo_run_exists as [w E]. exists w. split; [exact E|].
  exact (proj2 (proj2 (paddles_stay_as_built (1 / 4) true demo_frames w E))).
Defined.

(** X14.  In every state the loop reaches from [main]'s initial objects the
    ball is inside the playfield's width (0 <= x <= 1000: a ball that left
    it was put back to the centre in the same call), its radius is 12, and
    its trail holds at most 15 positions. *)
Theorem ball_stays_in_the_field
    (r : R) (flip : bool) (fs : list frame_input) (w : world) :
  main_loop (initial_world r flip) fs = Some w ->
  0 <= Ball.x (ball w) <= 1000 /\ Ball.radius (ball w) = 12%Z /\
  (List.length (Trail.positions (Ball.trail (ball w))) <= 15)%nat.
Proof.
  intros H.
  destruct (main_loop_invariant entities_as_built frame_entities fs _ w
              (initial_entities r flip) H) as (_ & _ & Hx & Hr & Hm & Ht).
  unfold trail_bounded in Ht. rewrite Hm in Ht. unfold WIDTH in Hx. auto.
Qed.

Lemma ball_stays_in_the_field_witness :
  exists w,
    main_loop (initial_world (1 / 4) true) demo_frames = Some w /\
    0 <= Ball.x (ball w) <= 1000 /\ Ball.radius (ball w) = 12%Z /\
    (List.length (Trail.positions (Ball.trail (ball w))) <= 15)%nat.
Proof.
  destruct demo_run_exists as [w E]. exists w. split; [exact E|].
  exact (ball_stays_in_the_field (1 / 4) true demo_frames w E).
Defined.

(** ** The game-over banner *)

(** X15.  With consistent globals in phase [game_over], the banner of
    [draw_game_over] is never empty and names the side that has 10 points:
    blue "Player 1 Wins!" (player against player) or "You Win!" (any other
    mode) for the left side, red "Player 2 Wins!" or "Computer Wins!" for
    the right side. *)
Theorem game_over_banner_names_the_winner (gl : globals) :
  scores_consistent gl -> game_state gl = "game_over"%string ->
  fst (winner_banner gl) <> ""%string /\
  ((score_left gl = 10%Z /\ snd (winner_banner gl) = BLUE /\
    fst (winner_banner gl)
    = if (game_mode gl =? "player_vs_player")%string
      then "Player 1 Wins!"%string else "You Win!"%string)
   \/
   (score_right gl = 10%Z /\ snd (winner_banner gl) = RED /\
    fst (winner_banner gl)
    = if (game_mode gl =? "player_vs_player")%string
      then "Player 2 Wins!"%string else "Computer Wins!"%string)).
Proof.
  destruct gl as [sl sr ms gs wn gm]. unfold scores_consistent, winner_banner.
  cbn [score_left score_right max_score game_state winner game_mode].
  intros (_ & _ & _ & Hcase) ->.
  destruct Hcase as [[[H | [H | H]] _] | [_ Hw]]; try discriminate.
  destruct Hw as [(-> & -> & _) | (-> & -> & _)]; cbn;
    destruct (gm =? "player_vs_player")%string; cbn;
    (split; [discriminate|]); [left | left | right | right];
    repeat split.
Qed.

Lemma game_over_banner_names_the_winner_witness :
  let gl := Globals 7 10 10 "game_over" "right" "none" in
  fst (winner_banner gl) <> ""%string /\
  ((score_left gl = 10%Z /\ snd (winner_banner gl) = BLUE /\
    fst (winner_banner gl)
    = if (game_mode gl =? "player_vs_player")%string
      then "Player 1 Wins!"%string else "You Win!"%string)
   \/
   (score_right gl = 10%Z /\ snd (winner_banner gl) = RED /\
    fst (winner_banner gl)
    = if (game_mode gl =? "player_vs_player")%string
      then "Player 2 Wins!"%string else "Computer Wins!"%string)).
Proof.
  apply (game_over_banner_names_the_winner
           (Globals 7 10 10 "game_over" "right" "none")).
  - unfold scores_consistent. cbn.
    split; [reflexivity|]. split; [lia|]. split; [lia|].
    right. split; [reflexivity|]. right. repeat split; lia.
  - reflexivity.
Defined.

(** ** Events *)

(** Destruct every test the goal branches on. *)
Ltac split_tests :=
  repeat (cbn;
          match goal with
          | |- context [if ?c then _ else _] =>
              lazymatch c with
              | context [if _ then _ else _] => fail
              | _ => destruct c eqn:?
              end
          end);
  cbn.

(** X16.  Paddle keys are latched only while the phase is [playing]: an
    event that arrives in any other phase leaves the four latches as they
    are, so a key released during a pause is still latched on resume. *)
Theorem keys_are_latched_only_while_playing (w : world) (e : event) :
  game_state (g w) <> "playing"%string ->
  latches (handle_event w e) = latches w.
Proof.
  destruct w as [[sl sr ms gs wn gm] lp rp b lu ld ru rd run].
  cbn [g game_state]. intros Hs. apply String.eqb_neq in Hs.
  unfold latches.
  destruct e as [|k|k|]; try reflexivity;
    destruct k; unfold handle_event, on_keydown, on_keyup, state_is, mode_is;
    cbn; rewrite ?Hs; split_tests; first [reflexivity | congruence].
Qed.

Lemma keys_are_latched_only_while_playing_witness :
  let w := World (Globals 0 0 10 "paused" "" "player_vs_player")
                 (Paddle.init 30 260 15 80) (Paddle.init 955 260 15 80)
                 centre_ball true false false true true in
  latches (handle_event w (KEYUP K_w)) = (true, false, false, true).
Proof.
  apply (keys_are_latched_only_while_playing
           (World (Globals 0 0 10 "paused" "" "player_vs_player")
                  (Paddle.init 30 260 15 80) (Paddle.init 955 260 15 80)
                  centre_ball true false false true true) (KEYUP K_w)).
  discriminate.
Defined.

Lemma handle_event_running (w : world) (e : event) :
  running (handle_event w e) = running w && negb (is_quit e).
Proof.
  destruct w as [gl lp rp b lu ld ru rd run].
  destruct e as [|k|k|]; [ | destruct k | destruct k | ];
    unfold handle_event, on_keydown, on_keyup, is_quit;
    split_tests; rewrite ?andb_true_r, ?andb_false_r; reflexivity.
Qed.

Lemma handle_events_running (es : list event) (w : world) :
  running (handle_events w es) = running w && negb (existsb is_quit es).
Proof.
  revert w. induction es as [|e es IH]; intros w; cbn [handle_events fold_left].
  - cbn. rewrite andb_true_r. reflexivity.
  - fold (handle_events (handle_event w e) es).
    rewrite IH, handle_event_running. cbn [existsb].
    destruct (running w), (is_quit e), (existsb is_quit es); reflexivity.
Qed.

Lemma game_logic_running (w : world) (d : draws)
    (w1 : world) (log : list burst) :
  game_logic w d = Some (w1, log) -> running w1 = running w.
Proof.
  intros H. apply game_logic_inv in H as [[_ H] | (_ & -> & _)];
    [|reflexivity].
  apply play_inv in H as (w0 & E & ->).
  destruct (move_paddles_frame w d) as (_ & _ & _ & _ & _ & _ & _ & _ & Er).
  apply ball_step_inv in E
    as (b0 & gl & log0 & h1 & b1 & p1 & log1 & h2 & b2 & p2 & log2
        & _ & _ & _ & -> & _).
  world_simpl. exact Er.
Qed.

(** X17.  Quitting takes effect at the end of the frame: the frame in which
    a QUIT event or the Q key arrives still runs to its end, [running] is
    false after it whatever else happened, and the loop runs no later
    frame.  No event ever sets [running] again. *)
Theorem quit_ends_the_loop_after_the_frame
    (w : world) (i : frame_input) (fs : list frame_input)
    (w1 : world) (log : list burst) :
  running w = true -> existsb is_quit (events i) = true ->
  frame w i = Some (w1, log) ->
  running w1 = false /\ main_loop w (i :: fs) = Some w1.
Proof.
  intros Hrun Hq H.
  assert (Hoff : running w1 = false).
  { apply frame_inv in H as (w0 & E & ->).
    destruct (drawing_frame w0) as (_ & _ & _ & _ & _ & _ & _ & _ & ->).
    rewrite (game_logic_running _ _ _ _ E), handle_events_running, Hq.
    apply andb_false_r. }
  split; [exact Hoff|].
  cbn [main_loop]. rewrite Hrun, H. cbn [bind fst].
  destruct fs as [|j fs]; cbn [main_loop]; [reflexivity|].
  rewrite Hoff. reflexivity.
Qed.

Lemma quit_ends_the_loop_after_the_frame_witness :
  exists w1,
    running w1 = false /\
    main_loop (initial_world (1 / 2) false)
      (FrameInput [KEYDOWN K_1; QUIT] some_draws :: demo_frames) = Some w1.
Proof.
  destruct (frame_total (initial_world (1 / 2) false)
              (FrameInput [KEYDOWN K_1; QUIT] some_draws))
    as (w1 & log & E & _).
  - apply initial_world_ok. unfold unit_draw. lra.
  - unfold fair_draws, unit_draw. cbn. lra.
  - exists w1.
    exact (quit_ends_the_loop_after_the_frame
             (initial_world (1 / 2) false)
             (FrameInput [KEYDOWN K_1; QUIT] some_draws)
             demo_frames w1 log eq_refl eq_refl E).
Defined.

(** X18.  The phase changes events can make: from the menu only to
    [playing], and then with both scores at 0; from [game_over] only to the
    menu, and then with both scores at 0 and the mode cleared; from
    [playing] and [paused] only to each other (no event ends a match or
    returns to the menu).  Paddles and ball are never touched by an event:
    the reset key zeroes the scores but leaves the ball flying and the
    paddles where they are. *)
Theorem event_transitions (w : world) (e : event) :
  left_paddle (handle_event w e) = left_paddle w /\
  right_paddle (handle_event w e) = right_paddle w /\
  ball (handle_event w e) = ball w /\
  (game_state (g w) = "menu"%string ->
   game_state (g (handle_event w e)) = "menu"%string \/
   (game_state (g (handle_event w e)) = "playing"%string /\
    score_left (g (handle_event w e)) = 0%Z /\
    score_right (g (handle_event w e)) = 0%Z)) /\
  (game_state (g w) = "game_over"%string ->
   g (handle_event w e) = g w \/
   (game_state (g (handle_event w e)) = "menu"%string /\
    game_mode (g (handle_event w e)) = "none"%string /\
    score_left (g (handle_event w e)) = 0%Z /\
    score_right (g (handle_event w e)) = 0%Z)) /\
  (game_on w -> game_on (handle_event w e)).
Proof.
  destruct (handle_event_entities w e) as (El & Er & Eb).
  split; [exact El|]. split; [exact Er|]. split; [exact Eb|].
  clear El Er Eb.
  destruct w as [[sl sr ms gs wn gm] lp rp b lu ld ru rd run].
  unfold game_on. cbn [g game_state].
  split; [|split].
  - intros ->. destruct e as [|k|k|]; try destruct k;
      unfold handle_event, on_keydown, on_keyup, state_is, mode_is;
      split_tests; auto.
  - intros ->. destruct e as [|k|k|]; try destruct k;
      unfold handle_event, on_keydown, on_keyup, state_is, mode_is;
      split_tests; auto 6.
  - intros [-> | ->]; destruct e as [|k|k|]; try destruct k;
      unfold handle_event, on_keydown, on_keyup, state_is, mode_is;
      split_tests; auto.
Qed.

Lemma event_transitions_witness :
  let w := World (Globals 10 3 10 "game_over" "left" "player_vs_ai")
                 (Paddle.init 30 260 15 80) (Paddle.init 955 260 15 80)
                 centre_ball false false false false true in
  g (handle_event w (KEYDOWN K_r)) = g w \/
  (game_state (g (handle_event w (KEYDOWN K_r))) = "menu"%string /\
   game_mode (g (handle_event w (KEYDOWN K_r))) = "none"%string /\
   score_left (g (handle_event w (KEYDOWN K_r))) = 0%Z /\
   score_right (g (handle_event w (KEYDOWN K_r))) = 0%Z).
Proof.
  refine (proj1 (proj2 (proj2 (proj2 (proj2
            (event_transitions
               (World (Globals 10 3 10 "game_over" "left" "player_vs_ai")
                      (Paddle.init 30 260 15 80) (Paddle.init 955 260 15 80)
                      centre_ball false false false false true)
               (KEYDOWN K_r)))))) _).
  reflexivity.
Defined.

(** ** A match keeps its mode *)

Lemma handle_event_in_match (w : world) (e : event) :
  game_on w ->
  game_mode (g (handle_event w e)) = game_mode (g w) /\
  game_on (handle_event w e).
Proof.
  destruct w as [[sl sr ms gs wn gm] lp rp b lu ld ru rd run].
  unfold game_on. cbn [g game_state game_mode].
  intros [-> | ->]; destruct e as [|k|k|]; try destruct k;
    unfold handle_event, on_keydown, on_keyup, state_is, mode_is;
    split_tests; auto.
Qed.

Lemma handle_events_in_match (es : list event) (w : world) :
  game_on w ->
  game_mode (g (handle_events w es)) = game_mode (g w) /\
  game_on (handle_events w es).
Proof.
  revert w. induction es as [|e es IH]; intros w Ho; cbn.
  - auto.
  - destruct (handle_event_in_match w e Ho) as [Em Ho1].
    destruct (IH _ Ho1) as [Em2 Ho2]. unfold handle_events in *.
    split; [congruence | exact Ho2].
Qed.

Lemma game_logic_mode (w : world) (d : draws) (w1 : world) (log : list burst) :
  game_logic w d = Some (w1, log) -> game_mode (g w1) = game_mode (g w).
Proof.
  intros H. apply game_logic_inv in H as [[_ H] | (_ & -> & _)];
    [|reflexivity].
  rewrite (play_globals _ _ _ _ H).
  destruct (check_win_frame
              (snd (fst (Ball.update (ball w) (g w)
                                     (angle_draw d) (flip_draw d)))))
    as (_ & _ & _ & -> & _).
  exact (proj2 (proj2 (proj2 (update_globals_frame _ _ _ _)))).
Qed.

(** X19.  The mode cannot change in the middle of a match: from a state in
    phase [playing] or [paused], across any number of frames each of which
    starts while the match is on, whatever the events, the mode is the one
    the match started with. *)
Theorem mode_is_fixed_during_a_match (w w2 : world) :
  in_game_run w w2 -> game_mode (g w2) = game_mode (g w).
Proof.
  induction 1 as [|w1 i w2 log _ IH Ho E]; [reflexivity|].
  rewrite <- IH. apply frame_inv in E as (w0 & E & ->).
  destruct (drawing_frame w0) as (-> & _).
  rewrite (game_logic_mode _ _ _ _ E).
  exact (proj1 (handle_events_in_match (events i) w1 Ho)).
Qed.

Lemma mode_is_fixed_during_a_match_witness :
  let w := handle_event (initial_world (1 / 2) false) (KEYDOWN K_2) in
  exists w1 log,
    frame w (FrameInput [KEYDOWN K_1; KEYDOWN K_r] some_draws)
    = Some (w1, log) /\
    game_mode (g w1) = "player_vs_ai"%string.
Proof.
  cbv zeta.
  destruct (frame_total
              (handle_event (initial_world (1 / 2) false) (KEYDOWN K_2))
              (FrameInput [KEYDOWN K_1; KEYDOWN K_r] some_draws))
    as (w1 & log & E & _).
  - apply (handle_events_ok _ [KEYDOWN K_2]), initial_world_ok.
    unfold unit_draw. lra.
  - unfold fair_draws, unit_draw. cbn. lra.
  - exists w1, log. split; [exact E|].
    apply (mode_is_fixed_during_a_match
             (handle_event (initial_world (1 / 2) false) (KEYDOWN K_2)) w1).
    eapply run_frame; [apply run_here | left; reflexivity | exact E].
Defined.

(** ** The automated paddle on target *)

(** X20.  With [difficulty = 0] the aim is exact, and while neither the
    speed cap nor the clamp cuts the step the paddle closes a tenth of the
    gap per call: the distance between its centre and the ball shrinks by
    the factor 0.9. *)
Theorem ai_move_closes_a_tenth_of_the_gap (p : Paddle.t) (ball_y r : R) :
  let centre := Paddle.y p + IZR (Paddle.height p / 2) in
  let step := (ball_y - centre) / 10 in
  Rabs step <= IZR (Paddle.speed p) ->
  20 <= Paddle.y p + step <= IZR (HEIGHT - 20 - Paddle.height p) ->
  Paddle.y (Paddle.ai_move p ball_y 0 r) = Paddle.y p + step /\
  Paddle.y (Paddle.ai_move p ball_y 0 r) + IZR (Paddle.height p / 2) - ball_y
  = 9 / 10 * (centre - ball_y).
Proof.
  intros centre step Hcap [Hlo Hhi].
  assert (Hy : Paddle.y (Paddle.ai_move p ball_y 0 r) = Paddle.y p + step).
  { unfold Paddle.ai_move, uniform. cbn [Paddle.set_y Paddle.y].
    fold centre.
    replace ((ball_y + (- IZR (Paddle.height p) * 0
                        + (IZR (Paddle.height p) * 0
                           - - IZR (Paddle.height p) * 0) * r) - centre)
             * (1 / 10)) with step by (unfold step; field).
    rewrite (Rltb_false _ _ Hcap).
    unfold Paddle.clamp, Rmax, Rmin.
    repeat destruct (Rle_dec _ _); lra. }
  split; [exact Hy|]. rewrite Hy. unfold step, centre. field.
Qed.

Lemma ai_move_closes_a_tenth_of_the_gap_witness :
  let p := Paddle.init 955 260 15 80 in
  Paddle.y (Paddle.ai_move p 320 0 (1 / 3)) = 260 + (320 - (260 + 40)) / 10.
Proof.
  refine (proj1 (ai_move_closes_a_tenth_of_the_gap
                   (Paddle.init 955 260 15 80) 320 (1 / 3) _ _)).
  - cbn [Paddle.init Paddle.y Paddle.height Paddle.speed].
    change (80 / 2)%Z with 40%Z. apply Rabs_le. lra.
  - unfold HEIGHT. cbn [Paddle.init Paddle.y Paddle.height].
    change (80 / 2)%Z with 40%Z. change (600 - 20 - 80)%Z with 500%Z. lra.
Defined.

(** ** The speed of a rally *)



(** ** The overlap test *)

(** X22.  The overlap test of [check_paddle_collision] is the exact
    intersection test of the paddle's rectangle with the ball's bounding
    square (not with its disc): for a ball and a paddle of non-negative
    size it holds exactly when some point lies in both. *)
Theorem overlap_is_bounding_square_intersection (b : Ball.t) (p : Paddle.t) :
  (0 <= Ball.radius b)%Z -> (0 <= Paddle.width p)%Z ->
  (0 <= Paddle.height p)%Z ->
  (Ball.overlaps b p = true <->
   exists qx qy,
     Ball.x b - IZR (Ball.radius b) <= qx <= Ball.x b + IZR (Ball.radius b) /\
     Ball.y b - IZR (Ball.radius b) <= qy <= Ball.y b + IZR (Ball.radius b) /\
     Paddle.x p <= qx <= Paddle.x p + IZR (Paddle.width p) /\
     Paddle.y p <= qy <= Paddle.y p + IZR (Paddle.height p)).
Proof.
  intros Hr Hw Hh. apply IZR_le in Hr, Hw, Hh.
  unfold Ball.overlaps. rewrite !andb_true_iff.
  split.
  - intros [[[H1 H2] H3] H4].
    destruct (Rleb_spec (Ball.x b - IZR (Ball.radius b))
                        (Paddle.x p + IZR (Paddle.width p)));
      [|discriminate].
    destruct (Rleb_spec (Paddle.x p) (Ball.x b + IZR (Ball.radius b)));
      [|discriminate].
    destruct (Rleb_spec (Ball.y b - IZR (Ball.radius b))
                        (Paddle.y p + IZR (Paddle.height p)));
      [|discriminate].
    destruct (Rleb_spec (Paddle.y p) (Ball.y b + IZR (Ball.radius b)));
      [|discriminate].
    exists (Rmax (Paddle.x p) (Ball.x b - IZR (Ball.radius b))),
           (Rmax (Paddle.y p) (Ball.y b - IZR (Ball.radius b))).
    unfold Rmax. repeat destruct (Rle_dec _ _); lra.
  - intros (qx & qy & Hx & Hy & Hpx & Hpy).
    repeat split; apply Rleb_true; lra.
Qed.

Lemma overlap_is_bounding_square_intersection_witness :
  Ball.overlaps edge_ball edge_paddle = true <->
  exists qx qy,
    Ball.x edge_ball - IZR (Ball.radius edge_ball) <= qx
      <= Ball.x edge_ball + IZR (Ball.radius edge_ball) /\
    Ball.y edge_ball - IZR (Ball.radius edge_ball) <= qy
      <= Ball.y edge_ball + IZR (Ball.radius edge_ball) /\
    Paddle.x edge_paddle <= qx
      <= Paddle.x edge_paddle + IZR (Paddle.width edge_paddle) /\
    Paddle.y edge_paddle <= qy
      <= Paddle.y edge_paddle + IZR (Paddle.height edge_paddle).
Proof.
  apply (overlap_is_bounding_square_intersection edge_ball edge_paddle);
    cbn; lia.
Defined.
